(** * Finite automata of [src/automata.py]: loading, word evaluation,
      epsilon-closure and determinisation.

    The development embeds the four functions of the module
    ([load_automata], [process], [handle_closure], [convert_to_dfa]) as Rocq
    functions over Python-shaped data and states the properties of the
    specification against them. *)

From Stdlib Require Import String Ascii List Bool Arith Lia Permutation.
Import ListNotations.
Open Scope string_scope.
Open Scope list_scope.

(** ** Python data *)

(** A transition rule as the algorithms read it: the tuple
    [(edge[0], edge[1], edge[2])] = (origin, symbol, destination). *)
Definition edge : Type := string * string * string.

Definition edge0 (e : edge) : string := fst (fst e).
Definition edge1 (e : edge) : string := snd (fst e).
Definition edge2 (e : edge) : string := snd e.

(** The epsilon marker of the module. *)
Definition EPSILON : string := "&".

(** A Python [set] of strings, as the list of its members without
    duplicates.  Membership, equality, emptiness, the order in which sets
    are queued and processed and the members of every set built do not
    depend on the order of the list.  The one thing that does is
    [''.join(s)] on a set with several members: Python iterates a set in
    the order of its hash table, which changes with the hash seed and with
    the history of the set, while the operations below put a new member
    after the ones already present.  So the results below that name the
    label of a set with several members either hold in every order of its
    members and say so, or are stated for an arbitrary labelling (module
    [Labels]). *)
Abbreviation pyset := (list string) (only parsing).

(** [x in s], for a set, a tuple or a list of strings. *)
Definition set_in (x : string) (s : list string) : bool := existsb (String.eqb x) s.

(** [s.add(x)] *)
Definition set_add (x : string) (s : pyset) : pyset :=
  if set_in x s then s else s ++ [x].

(** [s.union(t)]: a new set, the elements of [s] then those of [t] that are
    not yet there. *)
Definition set_union (s t : pyset) : pyset := fold_left (fun acc x => set_add x acc) t s.

(** [s <= t] and [s == t] on sets. *)
Definition set_subset (s t : pyset) : bool := forallb (fun x => set_in x t) s.
Definition set_eqb (s t : pyset) : bool := set_subset s t && set_subset t s.

(** [''.join(xs)] *)
Definition join (xs : list string) : string := String.concat "" xs.

(** [for symbol in word]: the characters of a [str], each a [str] of length
    one. *)
Fixpoint symbols_of (word : string) : list string :=
  match word with
  | EmptyString => []
  | String c rest => String c EmptyString :: symbols_of rest
  end.

(** The value held by the first component of an automaton: a tuple or list
    of names, or a single [str]. *)
Inductive pyval : Type :=
| PyList (l : list string)
| PyStr (s : string).

(** [x in s] for two [str]: [x] occurs in [s]. *)
Fixpoint is_substring (x s : string) : bool :=
  String.prefix x s ||
  match s with
  | EmptyString => false
  | String _ s' => is_substring x s'
  end.

(** [x in v] *)
Definition py_in (x : string) (v : pyval) : bool :=
  match v with
  | PyList l => set_in x l
  | PyStr s => is_substring x s
  end.

(** The five-tuple [(states, alphabet, delta, initial_state, final_states)];
    the fields are [automata[0]] to [automata[4]]. *)
Record automaton : Type := mk_automata {
  a_states : pyval;
  a_alphabet : list string;
  a_delta : list edge;
  a_initial_state : string;
  a_final_states : list string
}.

(** A [dict] from [str] to [str]: [d[k] = v] replaces the value of a key
    already present and appends a new key otherwise. *)
Fixpoint dict_set (k v : string) (d : list (string * string)) : list (string * string) :=
  match d with
  | [] => [(k, v)]
  | (k', v') :: d' => if k' =? k then (k, v) :: d' else (k', v') :: dict_set k v d'
  end.

(** ** [load_automata] *)

Module Loader.

Inductive error : Type :=
| ValueError (msg : string)
| IndexError.

Inductive result (A : Type) : Type :=
| Ok (a : A)
| Raise (e : error).
Arguments Ok {A} a.
Arguments Raise {A} e.

Definition bind {A B : Type} (r : result A) (k : A -> result B) : result B :=
  match r with
  | Ok a => k a
  | Raise e => Raise e
  end.

Notation "x <- r ;; k" := (bind r (fun x => k))
  (at level 61, r at next level, right associativity).

(** Whitespace for [str.strip] and [str.split] among the characters below
    256: tab to carriage return, the four separators, space, next line
    (133) and no-break space (160).  The wider Unicode whitespace has no
    counterpart in [ascii]. *)
Definition isspace (c : ascii) : bool :=
  let n := nat_of_ascii c in
  (((9 <=? n) && (n <=? 13)) || ((28 <=? n) && (n <=? 32)) || (n =? 133) || (n =? 160))%nat.

(** [s.split()]: maximal runs of non-blank characters; [tok] is the run
    being read. *)
Fixpoint split_from (tok : option string) (s : string) : list string :=
  match s with
  | EmptyString => match tok with Some t => [t] | None => [] end
  | String c s' =>
      if isspace c then
        match tok with
        | Some t => t :: split_from None s'
        | None => split_from None s'
        end
      else
        split_from (Some (match tok with Some t => t | None => "" end ++ String c "")%string) s'
  end.

Definition split (s : string) : list string := split_from None s.

Fixpoint lstrip (s : string) : string :=
  match s with
  | EmptyString => EmptyString
  | String c s' => if isspace c then lstrip s' else s
  end.

Fixpoint rstrip (s : string) : string :=
  match s with
  | EmptyString => EmptyString
  | String c s' =>
      match rstrip s' with
      | EmptyString => if isspace c then EmptyString else String c EmptyString
      | r => String c r
      end
  end.

Definition strip (s : string) : string := rstrip (lstrip s).

(** [arquivo.readline()] on the lines still to be read: the next line, or
    the empty string at the end of the file. *)
Definition readline (lines : list string) : string * list string :=
  match lines with
  | [] => ("", [])
  | l :: rest => (l, rest)
  end.

(** What the [with open(...)] block leaves in the local variables. *)
Record parsed : Type := mk_parsed {
  p_alphabet : list string;
  p_states : list string;
  p_final_states : list string;
  p_initial_state : string;
  p_delta : list (list string)
}.

Definition parse (lines : list string) : parsed :=
  let '(l, lines) := readline lines in
  let alphabet := split (strip l) in
  let '(l, lines) := readline lines in
  let states := split (strip l) in
  let '(l, lines) := readline lines in
  let final_states := split (strip l) in
  let '(l, lines) := readline lines in
  let initial_state := strip l in
  let delta := map (fun line => split (strip line)) lines in
  mk_parsed alphabet states final_states initial_state delta.

(** [edge[i]] on a tuple of tokens. *)
Definition item (edge : list string) (i : nat) : result string :=
  match nth_error edge i with
  | Some x => Ok x
  | None => Raise IndexError
  end.

(** [edge[0] in states and (edge[1] in alphabet or edge[1] == '&') and
    edge[2] in states], evaluated left to right with Python's short
    circuits. *)
Definition edge_ok (states alphabet edge : list string) : result bool :=
  e0 <- item edge 0 ;;
  if set_in e0 states then
    e1 <- item edge 1 ;;
    if set_in e1 alphabet || (e1 =? EPSILON) then
      e2 <- item edge 2 ;;
      Ok (set_in e2 states)
    else Ok false
  else Ok false.

Fixpoint check_final_states (states final_states : list string) : result unit :=
  match final_states with
  | [] => Ok tt
  | state :: rest =>
      if negb (set_in state states) then Raise (ValueError "invalid final state")
      else check_final_states states rest
  end.

Fixpoint check_delta (states alphabet : list string) (delta : list (list string))
  : result unit :=
  match delta with
  | [] => Ok tt
  | edge :: rest =>
      ok <- edge_ok states alphabet edge ;;
      if negb ok then Raise (ValueError "invalid edge")
      else check_delta states alphabet rest
  end.

(** The tuple returned by [load_automata]; the rules are the token tuples as
    read. *)
Definition loaded : Type :=
  list string * list string * list (list string) * string * list string.

Definition validate (p : parsed) : result loaded :=
  if negb (set_in (p_initial_state p) (p_states p))
  then Raise (ValueError "invalid initial state")
  else
    _ <- check_final_states (p_states p) (p_final_states p) ;;
    _ <- check_delta (p_states p) (p_alphabet p) (p_delta p) ;;
    Ok (p_states p, p_alphabet p, p_delta p, p_initial_state p, p_final_states p).

(** [lines] are the lines of the opened file, in order. *)
Definition load_automata (lines : list string) : result loaded :=
  validate (parse lines).

(** The invariants of the data model, on the parsed components. *)
Definition edge_valid (p : parsed) (edge : list string) : Prop :=
  exists e0 e1 e2,
    nth_error edge 0 = Some e0 /\ nth_error edge 1 = Some e1 /\ nth_error edge 2 = Some e2 /\
    In e0 (p_states p) /\ (In e1 (p_alphabet p) \/ e1 = EPSILON) /\ In e2 (p_states p).

Definition invariants (p : parsed) : Prop :=
  In (p_initial_state p) (p_states p) /\
  (forall f, In f (p_final_states p) -> In f (p_states p)) /\
  (forall edge, In edge (p_delta p) -> edge_valid p edge).

(** The three ways in which the parsed components can be invalid. *)
Definition violation (p : parsed) : Prop :=
  ~ In (p_initial_state p) (p_states p) \/
  (exists f, In f (p_final_states p) /\ ~ In f (p_states p)) \/
  (exists edge, In edge (p_delta p) /\ ~ edge_valid p edge).

End Loader.

(** ** [process] *)

Module Evaluator.

(** [for edge in delta: if edge[0] == current_state and edge[1] == symbol:
    current_state = edge[2]; break]: the state after the loop. *)
Fixpoint follow (delta : list edge) (current_state symbol : string) : string :=
  match delta with
  | [] => current_state
  | e :: rest =>
      if (edge0 e =? current_state) && (edge1 e =? symbol) then edge2 e
      else follow rest current_state symbol
  end.

(** [for symbol in word]: [None] when the loop is left by the [break] of an
    unknown symbol ([is_valid_word] is [False]), the last [current_state]
    otherwise. *)
Fixpoint run_symbols (alphabet : list string) (delta : list edge)
         (current_state : string) (symbols : list string) : option string :=
  match symbols with
  | [] => Some current_state
  | symbol :: rest =>
      if negb (set_in symbol alphabet) then None
      else run_symbols alphabet delta (follow delta current_state symbol) rest
  end.

(** The value stored in [result[word]]. *)
Definition classify (alphabet : list string) (delta : list edge) (initial_state : string)
           (final_states : list string) (word : string) : string :=
  match run_symbols alphabet delta initial_state (symbols_of word) with
  | None => "INVALIDA"
  | Some current_state =>
      if set_in current_state final_states then "ACEITA" else "REJEITA"
  end.

Definition process (automata : automaton) (words : list string) : list (string * string) :=
  let delta := a_states automata in
  let alphabet := a_alphabet automata in
  let delta := a_delta automata in
  let initial_state := a_initial_state automata in
  let final_states := a_final_states automata in
  fold_left
    (fun result word =>
       dict_set word (classify alphabet delta initial_state final_states word) result)
    words [].

End Evaluator.

(** ** [handle_closure] *)

Module Closure.

(** The body of [for edge in delta] inside the [while]: the state of the
    loop is the pair (closure, stack); the head of [stack] is the element
    that [stack.pop()] returns next, and [stack.append] conses. *)
Definition closure_visit (current : string) (acc : pyset * list string) (e : edge)
  : pyset * list string :=
  let '(closure, stack) := acc in
  if (edge0 e =? current) && (edge1 e =? EPSILON) && negb (set_in (edge2 e) closure)
  then (set_add (edge2 e) closure, edge2 e :: stack)
  else (closure, stack).

Definition closure_for (current : string) (delta : list edge) (acc : pyset * list string)
  : pyset * list string :=
  fold_left (closure_visit current) delta acc.

(** At most [n] iterations of [while stack:], from the configuration
    (closure, stack); the configuration reached is returned.  The loop has
    exited exactly when the returned stack is empty. *)
Fixpoint closure_while (n : nat) (delta : list edge) (closure : pyset) (stack : list string)
  : pyset * list string :=
  match n, stack with
  | S n', current :: rest =>
      let '(closure', stack') := closure_for current delta (closure, rest) in
      closure_while n' delta closure' stack'
  | _, _ => (closure, stack)
  end.

(** One more iteration than there are rules is always enough for the loop to
    exit ([closure_while_exits] below), so the closure is read there. *)
Definition closure_bound (delta : list edge) : nat := S (length delta).

Definition handle_closure (state : string) (delta : list edge) : pyset :=
  fst (closure_while (closure_bound delta) delta [state] [state]).

(** Reachability by zero or more epsilon rules. *)
Inductive eps_reach (delta : list edge) (p : string) : string -> Prop :=
| eps_refl : eps_reach delta p p
| eps_step q r : eps_reach delta p q -> In (q, EPSILON, r) delta -> eps_reach delta p r.

(** The rules of [delta] whose destination is not yet in the closure: what
    may still be pushed. *)
Definition pending (delta : list edge) (closure : pyset) : nat :=
  length (filter (fun e => negb (set_in (edge2 e) closure)) delta).

(** What one pass of [for edge in delta] over the rules [l] does to
    (closure, stack): from [(c, s)] to [(c', s')]. *)
Record scan_post (current : string) (l : list edge)
       (c s c' s' : list string) : Prop := {
  sp_mono   : incl c c';
  sp_succ   : forall r, In (current, EPSILON, r) l -> In r c';
  sp_origin : forall q, In q c' -> In q c \/ In (current, EPSILON, q) l;
  sp_stack  : forall q, In q s' -> In q s \/ In q c';
  sp_keep   : incl s s';
  sp_pushed : forall q, In q c' -> In q c \/ In q s';
  sp_nodup  : NoDup c -> NoDup c'
}.

(** The loop invariant of [while stack:]. *)
Record closure_inv (delta : list edge) (state : string) (c s : list string) : Prop := {
  ci_seed    : In state c;
  ci_sound   : forall q, In q c -> eps_reach delta state q;
  ci_stack   : incl s c;
  ci_closed  : forall q r, In q c -> ~ In q s -> In (q, EPSILON, r) delta -> In r c;
  ci_nodup   : NoDup c
}.

End Closure.

(** ** [convert_to_dfa] *)

Module Determinizer.
Import Closure.

(** A rule of the automaton under construction:
    [(current, symbol, new_state)] over sets of states. *)
Definition set_edge : Type := list string * string * list string.

(** [for edge in delta: if edge[0] == state and edge[1] == symbol:
    new_state = new_state.union(handle_closure(edge[2], delta))] *)
Definition reach_from (delta : list edge) (symbol state : string) (new_state : pyset)
  : pyset :=
  fold_left
    (fun new_state e =>
       if (edge0 e =? state) && (edge1 e =? symbol)
       then set_union new_state (handle_closure (edge2 e) delta)
       else new_state)
    delta new_state.

(** [new_state = set(); for state in current: ...] *)
Definition successor (delta : list edge) (symbol : string) (current : pyset) : pyset :=
  fold_left (fun new_state state => reach_from delta symbol state new_state) current [].

(** [new_state not in watched] negated: list membership with [==] on
    sets. *)
Definition watched_in (new_state : pyset) (watched : list pyset) : bool :=
  existsb (set_eqb new_state) watched.

(** The body of [for symbol in alphabet]; the loop state is
    (new_delta, watched, queue), the head of [queue] being the set that
    [queue.pop()] returns next. *)
Definition symbol_step (delta : list edge) (current : pyset)
           (acc : list set_edge * list pyset * list pyset) (symbol : string)
  : list set_edge * list pyset * list pyset :=
  let '(new_delta, watched, queue) := acc in
  let new_state := successor delta symbol current in
  match new_state with
  | [] => (new_delta, watched, queue)
  | _ :: _ =>
      let new_delta := new_delta ++ [(current, symbol, new_state)] in
      if negb (watched_in new_state watched)
      then (new_delta, watched ++ [new_state], new_state :: queue)
      else (new_delta, watched, queue)
  end.

(** [while queue:] with at most [fuel] iterations; [None] when they do not
    suffice.  The result is (new_states, new_delta). *)
Fixpoint subset_while (fuel : nat) (alphabet : list string) (delta : list edge)
         (queue watched new_states : list pyset) (new_delta : list set_edge)
  : option (list pyset * list set_edge) :=
  match queue with
  | [] => Some (new_states, new_delta)
  | current :: queue =>
      match fuel with
      | O => None
      | S fuel =>
          let new_states := new_states ++ [current] in
          let '(new_delta, watched, queue) :=
            fold_left (symbol_step delta current) alphabet (new_delta, watched, queue) in
          subset_while fuel alphabet delta queue watched new_states new_delta
      end
  end.

(** "Atualiza estados finais": the sets with a member in [final_states],
    each appended once ([break]). *)
Definition select_final_states (final_states : list string) (new_states : list pyset)
  : list pyset :=
  filter (fun new_state => existsb (fun state => set_in state final_states) new_state)
         new_states.

(** "Atualiza estado inicial" followed by [''.join(new_initial_state)]:
    the first set that holds [initial_state], else [initial_state] itself,
    a [str], joined character by character. *)
Definition select_initial_state (initial_state : string) (new_states : list pyset)
  : string :=
  match find (fun new_state => set_in initial_state new_state) new_states with
  | Some new_state => join new_state
  | None => join (symbols_of initial_state)
  end.

(** [temp_new_state = []; for new_state in new_states: temp_new_state =
    ''.join(new_state)]: every pass assigns, none appends. *)
Definition format_states (new_states : list pyset) : pyval :=
  fold_left (fun _ new_state => PyStr (join new_state)) new_states (PyList []).

Definition format_delta (new_delta : list set_edge) : list edge :=
  map (fun e : set_edge => let '(org, symbol, dest) := e in (join org, symbol, join dest))
      new_delta.

Definition format_final_states (new_final_states : list pyset) : list string :=
  map join new_final_states.

Definition convert_to_dfa (fuel : nat) (automata : automaton) : option automaton :=
  let alphabet := a_alphabet automata in
  let delta := a_delta automata in
  let initial_state := a_initial_state automata in
  let final_states := a_final_states automata in
  let initial_closure := handle_closure initial_state delta in
  match subset_while fuel alphabet delta [initial_closure] [] [] [] with
  | None => None
  | Some (new_states, new_delta) =>
      let new_final_states := select_final_states final_states new_states in
      let new_initial_state := select_initial_state initial_state new_states in
      Some (mk_automata (format_states new_states) alphabet (format_delta new_delta)
                        new_initial_state (format_final_states new_final_states))
  end.

(** No two rules, at different positions of the list, with the same origin
    and symbol. *)
Definition deterministic (delta : list edge) : Prop :=
  forall i j e1 e2,
    nth_error delta i = Some e1 -> nth_error delta j = Some e2 ->
    edge0 e1 = edge0 e2 -> edge1 e1 = edge1 e2 -> i = j.

(** The weaker reading: rules with the same origin and symbol agree on the
    destination. *)
Definition functional (delta : list edge) : Prop :=
  forall e1 e2,
    In e1 delta -> In e2 delta ->
    edge0 e1 = edge0 e2 -> edge1 e1 = edge1 e2 -> edge2 e1 = edge2 e2.

End Determinizer.

(** ** Reference semantics of an automaton with epsilon rules *)

Module NFA.

(** A run from [q] over the symbols [w] ends in [q']: epsilon rules read
    nothing, any other rule reads its symbol. *)
Inductive run (delta : list edge) : string -> list string -> string -> Prop :=
| run_done q : run delta q [] q
| run_eps q r w q' : In (q, EPSILON, r) delta -> run delta r w q' -> run delta q w q'
| run_read q a r w q' : a <> EPSILON -> In (q, a, r) delta -> run delta r w q' ->
                        run delta q (a :: w) q'.

Definition accepts (automata : automaton) (word : string) : Prop :=
  exists q, run (a_delta automata) (a_initial_state automata) (symbols_of word) q /\
            In q (a_final_states automata).

(** The classification of a word by the language of the automaton. *)
Definition classifies (automata : automaton) (word verdict : string) : Prop :=
  if forallb (fun symbol => set_in symbol (a_alphabet automata)) (symbols_of word)
  then (accepts automata word /\ verdict = "ACEITA") \/
       (~ accepts automata word /\ verdict = "REJEITA")
  else verdict = "INVALIDA".

End NFA.

(** ** Sample automata *)

Module Samples.

(** One rule, [q0 a q1], over the alphabet [a b]; [q1] is final. *)
Definition one_rule : automaton :=
  mk_automata (PyList ["q0"; "q1"]) ["a"; "b"] [("q0", "a", "q1")] "q0" ["q1"].

(** A single state with a loop. *)
Definition self_loop : automaton :=
  mk_automata (PyList ["q0"]) ["a"] [("q0", "a", "q0")] "q0" ["q0"].

(** Every state has a rule for every symbol; the names [a], [aa] and [aaa]
    are three different states.  The only set with two members met by
    [convert_to_dfa] is [{a, aa}], whose label is [aaa] in either order. *)
Definition names : automaton :=
  mk_automata (PyList ["s"; "a"; "aa"; "aaa"]) ["x"; "y"]
    [("s", "x", "a"); ("s", "x", "aa"); ("s", "y", "aaa");
     ("a", "x", "a"); ("a", "y", "a");
     ("aa", "x", "aa"); ("aa", "y", "aa");
     ("aaa", "x", "s"); ("aaa", "y", "aaa")]
    "s" ["a"].

(** The automaton of the sample file below, as [process] receives it. *)
Definition sample : automaton :=
  mk_automata (PyList ["q0"; "q1"; "q2"; "q3"]) ["a"; "b"]
    [("q0", "a", "q1"); ("q0", "b", "q2"); ("q1", "a", "q0"); ("q1", "b", "q3");
     ("q2", "a", "q3"); ("q2", "b", "q0"); ("q3", "a", "q1"); ("q3", "b", "q2")]
    "q0" ["q0"; "q3"].

(** The sample file of the docstring of [load_automata]. *)
Definition sample_file : list string :=
  [ "a b
"; "q0 q1 q2 q3
"; "q0 q3
"; "q0
"; "q0 a q1
"; "q0 b q2
"; "q1 a q0
"; "q1 b q3
"; "q2 a q3
"; "q2 b q0
"; "q3 a q1
"; "q3 b q2
" ].

(** A file that declares [&] in its alphabet line. *)
Definition marker_file : list string :=
  [ "a &
"; "q0
"; "q0
"; "q0
"; "q0 a q0
" ].

(** The output of [convert_to_dfa] on the three sample automata. *)
Definition one_rule_dfa : automaton :=
  mk_automata (PyStr "q1") ["a"; "b"] [("q0", "a", "q1")] "q0" ["q1"].

Definition self_loop_dfa : automaton :=
  mk_automata (PyStr "q0") ["a"] [("q0", "a", "q0"); ("q0", "a", "q0")] "q0" ["q0"; "q0"].

Definition names_dfa : automaton :=
  mk_automata (PyStr "aaa") ["x"; "y"]
    [("s", "x", "aaa"); ("s", "y", "aaa"); ("aaa", "x", "s"); ("aaa", "y", "aaa");
     ("s", "x", "aaa"); ("s", "y", "aaa"); ("aaa", "x", "aaa"); ("aaa", "y", "aaa")]
    "s" ["aaa"].

End Samples.

(** ** Further definitions for the properties of the four functions *)

(** [d.get(k)]: the value stored for a key, if any. *)
Fixpoint dict_get (k : string) (d : list (string * string)) : option string :=
  match d with
  | [] => None
  | (k', v') :: d' => if k' =? k then Some v' else dict_get k d'
  end.

Module Total.

(** No rule is labelled with the epsilon marker. *)
Definition eps_free (delta : list edge) : Prop :=
  forall e, In e delta -> edge1 e <> EPSILON.

(** The automaton has, within the states [qs], a rule for every state and
    every symbol of its alphabet, and its rules do not leave [qs]. *)
Definition complete (qs : list string) (automata : automaton) : Prop :=
  In (a_initial_state automata) qs /\
  (forall e, In e (a_delta automata) -> In (edge2 e) qs) /\
  (forall q a, In q qs -> In a (a_alphabet automata) ->
               exists r, In (q, a, r) (a_delta automata)).

End Total.

Module Tokens.
Import Loader.

(** No character of [t] is whitespace. *)
Fixpoint blank_free (t : string) : bool :=
  match t with
  | EmptyString => true
  | String c t' => negb (isspace c) && blank_free t'
  end.

(** A name as [str.split] yields them: not empty, no whitespace inside. *)
Definition clean (t : string) : Prop := t <> "" /\ blank_free t = true.

(** A rule line with fewer than three tokens on which the test of
    [load_automata] runs out of tokens: every token present passes its
    check. *)
Definition runs_out (p : parsed) (edge : list string) : Prop :=
  edge = [] \/
  (exists e0, edge = [e0] /\ In e0 (p_states p)) \/
  (exists e0 e1, edge = [e0; e1] /\ In e0 (p_states p) /\
                 (In e1 (p_alphabet p) \/ e1 = EPSILON)).

(** A rule line with fewer than three tokens on which the test fails before
    it runs out of tokens. *)
Definition fails_early (p : parsed) (edge : list string) : Prop :=
  (exists e0, (edge = [e0] \/ exists e1, edge = [e0; e1]) /\ ~ In e0 (p_states p)) \/
  (exists e0 e1, edge = [e0; e1] /\ In e0 (p_states p) /\
                 ~ In e1 (p_alphabet p) /\ e1 <> EPSILON).

End Tokens.

Module Subsets.
Import Closure Determinizer.

(** The states that can occur in a successor set: the destinations of the
    rules. *)
Definition universe (delta : list edge) : list string := map edge2 delta.

(** All the sublists of [u]: one representative for every subset of the
    names in [u]. *)
Fixpoint powerset (u : list string) : list (list string) :=
  match u with
  | [] => [[]]
  | x :: u' => map (cons x) (powerset u') ++ powerset u'
  end.

(** The subsets of [u] that are not yet in [watched]: what may still be
    queued. *)
Definition unwatched (u : list string) (watched : list (list string)) : nat :=
  length (filter (fun p => negb (watched_in p watched)) (powerset u)).

(** The rules that one pass of [for symbol in alphabet] appends to
    [new_delta] for the set [current]. *)
Definition emitted (delta : list edge) (current : list string) (symbols : list string)
  : list set_edge :=
  flat_map
    (fun symbol =>
       match successor delta symbol current with
       | [] => []
       | _ :: _ => [(current, symbol, successor delta symbol current)]
       end)
    symbols.

(** The set reached from the set [c] by computing the successor set for
    each symbol of [w] in turn. *)
Definition after (delta : list edge) (c : list string) (w : list string) : list string :=
  fold_left (fun c symbol => successor delta symbol c) w c.

(** A set of states that no epsilon rule leaves. *)
Definition eps_closed (delta : list edge) (c : list string) : Prop :=
  forall p q, In p c -> eps_reach delta p q -> In q c.

(** The sets of states that [convert_to_dfa] turns into labels: the
    processed sets and the destinations of the rules. *)
Definition labelled (new_states : list (list string)) (new_delta : list set_edge)
  : list (list string) :=
  new_states ++ map (fun e : set_edge => snd e) new_delta.

(** The invariant of [while queue:] at the start of every iteration, [c0]
    being the set the queue starts with. *)
Record subset_inv (alphabet : list string) (delta : list edge) (c0 : list string)
       (queue watched new_states : list (list string)) (new_delta : list set_edge)
  : Prop := {
  si_rules : forall c s n,
      In (c, s, n) new_delta <->
      In c new_states /\ In s alphabet /\ n = successor delta s c /\ n <> [];
  si_watched : forall c s n, In (c, s, n) new_delta -> watched_in n watched = true;
  si_queued : forall x, In x watched -> In x queue \/ In x new_states;
  si_origin : forall x, In x queue \/ In x new_states ->
                        x = c0 \/ exists c s, In (c, s, x) new_delta;
  si_first : (new_states = [] /\ queue = [c0]) \/ exists rest, new_states = c0 :: rest
}.

End Subsets.

Module Labels.
Import Closure Determinizer Subsets.

(** The end of [convert_to_dfa] ("Formatação dos dados", with the choice of
    the initial and final sets before it) for an arbitrary labelling:
    [label s] stands for the string that [''.join(s)] returns for the set
    [s], in whatever order Python iterates it.  [convert_to_dfa] is the
    case where the members are joined in the order of the list
    ([convert_labelled_join]). *)
Definition select_initial_label (label : list string -> string) (initial_state : string)
           (new_states : list (list string)) : string :=
  match find (fun new_state => set_in initial_state new_state) new_states with
  | Some new_state => label new_state
  | None => join (symbols_of initial_state)
  end.

Definition format_states_with (label : list string -> string)
           (new_states : list (list string)) : pyval :=
  fold_left (fun _ new_state => PyStr (label new_state)) new_states (PyList []).

Definition format_delta_with (label : list string -> string) (new_delta : list set_edge)
  : list edge :=
  map (fun e : set_edge => let '(org, symbol, dest) := e in (label org, symbol, label dest))
      new_delta.

Definition format_final_states_with (label : list string -> string)
           (new_final_states : list (list string)) : list string :=
  map label new_final_states.

Definition convert_labelled (label : list string -> string) (fuel : nat)
           (automata : automaton) : option automaton :=
  let alphabet := a_alphabet automata in
  let delta := a_delta automata in
  let initial_state := a_initial_state automata in
  let final_states := a_final_states automata in
  let initial_closure := handle_closure initial_state delta in
  match subset_while fuel alphabet delta [initial_closure] [] [] [] with
  | None => None
  | Some (new_states, new_delta) =>
      let new_final_states := select_final_states final_states new_states in
      let new_initial_state := select_initial_label label initial_state new_states in
      Some (mk_automata (format_states_with label new_states) alphabet
                        (format_delta_with label new_delta)
                        new_initial_state
                        (format_final_states_with label new_final_states))
  end.

(** The label of each of the sets is the concatenation of its members in
    some order. *)
Definition joins (label : list string -> string) (sets : list (list string)) : Prop :=
  forall c, In c sets -> exists members, Permutation c members /\ label c = join members.

(** Labels that tell the sets apart and nothing more: two of the sets have
    the same label exactly when they are equal as sets. *)
Definition faithful (label : list string -> string) (sets : list (list string)) : Prop :=
  forall c c', In c sets -> In c' sets -> (label c = label c' <-> set_eqb c c' = true).

Definition faithfulb (label : list string -> string) (sets : list (list string)) : bool :=
  forallb (fun c => forallb (fun c' => Bool.eqb (label c =? label c') (set_eqb c c')) sets)
          sets.

(** A labelling that reads the members of a set in the order of [names],
    whatever the order of the set. *)
Definition in_order_of (names : list string) (c : list string) : string :=
  join (filter (fun q => set_in q c) names).

End Labels.

Module MoreSamples.

(** A non-deterministic automaton with an epsilon rule: [q0] loops on both
    symbols and guesses, on [a], that the rest of the word is a run of
    [b]; [q2] is final. *)
Definition guess : automaton :=
  mk_automata (PyList ["q0"; "q1"; "q2"]) ["a"; "b"]
    [("q0", "a", "q0"); ("q0", "a", "q1"); ("q0", "b", "q0");
     ("q1", "&", "q2"); ("q2", "b", "q2")]
    "q0" ["q2"].

End MoreSamples.

(** Case analysis on the membership of a rule in a literal list of rules. *)
Ltac in_rules H :=
  repeat (destruct H as [H | H]; [inversion H; subst; clear H |]); try destruct H.

(** ** Lemmas on sets *)

Lemma set_in_In x s : set_in x s = true <-> In x s.
Proof.
  unfold set_in. rewrite existsb_exists. split.
  - intros [y [Hy Heq]]. apply String.eqb_eq in Heq. now subst.
  - intros H. exists x. split; [assumption | apply String.eqb_refl].
Qed.

Lemma set_in_false x s : set_in x s = false <-> ~ In x s.
Proof.
  rewrite <- set_in_In. destruct (set_in x s); split; congruence.
Qed.

Lemma set_in_app x s t : set_in x (s ++ t) = set_in x s || set_in x t.
Proof. unfold set_in. apply existsb_app. Qed.

(** ** The closure loop: termination *)

Section ClosureLoop.
Import Closure.
Variable delta : list edge.

Lemma closure_visit_cases current (closure : pyset) (stack : list string) e :
  (edge0 e = current /\ edge1 e = EPSILON /\ ~ In (edge2 e) closure /\
   closure_visit current (closure, stack) e = (closure ++ [edge2 e], edge2 e :: stack))
  \/
  (~ (edge0 e = current /\ edge1 e = EPSILON /\ ~ In (edge2 e) closure) /\
   closure_visit current (closure, stack) e = (closure, stack)).
Proof.
  unfold closure_visit, set_add.
  destruct (String.eqb_spec (edge0 e) current) as [H0 | H0]; simpl.
  - destruct (String.eqb_spec (edge1 e) EPSILON) as [H1 | H1]; simpl.
    + destruct (set_in (edge2 e) closure) eqn:E; simpl.
      * right. apply set_in_In in E. tauto.
      * left. apply set_in_false in E. tauto.
    + right. tauto.
  - right. tauto.
Qed.

Lemma pending_app_le (D : list edge) (closure : pyset) d :
  pending D (closure ++ [d]) <= pending D closure.
Proof.
  unfold pending. induction D as [| e D IH]; [apply Nat.le_refl |].
  cbn [filter]. rewrite set_in_app.
  destruct (set_in (edge2 e) closure); cbn [orb negb]; [exact IH |].
  destruct (set_in (edge2 e) [d]); cbn [negb length]; lia.
Qed.

Lemma pending_app_lt (D : list edge) (closure : pyset) e :
  In e D -> ~ In (edge2 e) closure ->
  S (pending D (closure ++ [edge2 e])) <= pending D closure.
Proof.
  unfold pending. intros Hin Hnot.
  induction D as [| e' D IH]; [destruct Hin |].
  cbn [filter]. rewrite set_in_app.
  destruct Hin as [-> | Hin].
  - apply set_in_false in Hnot. rewrite Hnot.
    replace (set_in (edge2 e) [edge2 e]) with true
      by (symmetry; apply set_in_In; now left).
    cbn [orb negb length].
    pose proof (pending_app_le D closure (edge2 e)) as P. unfold pending in P. lia.
  - specialize (IH Hin).
    destruct (set_in (edge2 e') closure); cbn [orb negb]; [exact IH |].
    destruct (set_in (edge2 e') [edge2 e]); cbn [negb length]; lia.
Qed.

Lemma closure_for_cons current e (l : list edge) acc :
  closure_for current (e :: l) acc = closure_for current l (closure_visit current acc e).
Proof. reflexivity. Qed.

Lemma closure_for_measure current (l : list edge) (closure : pyset) (stack : list string) :
  incl l delta ->
  let '(closure', stack') := closure_for current l (closure, stack) in
  length stack' + pending delta closure' <= length stack + pending delta closure.
Proof.
  revert closure stack. induction l as [| e l IH]; intros closure stack Hl.
  - cbn. lia.
  - assert (He : In e delta) by (apply Hl; now left).
    assert (Hl' : incl l delta) by (intros x Hx; apply Hl; now right).
    rewrite closure_for_cons.
    destruct (closure_visit_cases current closure stack e) as [(_ & _ & Hn & ->) | (_ & ->)].
    + generalize (IH (closure ++ [edge2 e]) (edge2 e :: stack) Hl').
      destruct (closure_for current l (closure ++ [edge2 e], edge2 e :: stack)) as [c' s'].
      pose proof (pending_app_lt delta closure e He Hn). cbn [length]. lia.
    + apply IH, Hl'.
Qed.

Lemma closure_while_measure n closure stack :
  length stack + pending delta closure <= n ->
  snd (closure_while n delta closure stack) = [].
Proof.
  revert closure stack. induction n as [| n IH]; intros closure stack Hm.
  - destruct stack; simpl in *; [reflexivity | lia].
  - destruct stack as [| current rest]; simpl; [reflexivity |].
    generalize (closure_for_measure current delta closure rest (incl_refl _)).
    destruct (closure_for current delta (closure, rest)) as [c' s'].
    intros Hf. apply IH. simpl in Hm. lia.
Qed.

Lemma pending_le closure : pending delta closure <= length delta.
Proof. unfold pending. apply filter_length_le. Qed.

Lemma closure_while_exits state :
  snd (closure_while (closure_bound delta) delta [state] [state]) = [].
Proof.
  apply closure_while_measure. unfold closure_bound. simpl.
  pose proof (pending_le [state]). lia.
Qed.

(** Once the stack is empty further iterations change nothing. *)
Lemma closure_while_stable n m closure stack :
  snd (closure_while n delta closure stack) = [] ->
  closure_while (n + m) delta closure stack = closure_while n delta closure stack.
Proof.
  revert closure stack. induction n as [| n IH]; intros closure stack H.
  - simpl in *. destruct stack; [| discriminate]. destruct m; reflexivity.
  - destruct stack as [| current rest]; [reflexivity |]. simpl in *.
    destruct (closure_for current delta (closure, rest)) as [c' s']. now apply IH.
Qed.

Lemma closure_for_post_keep current (l : list edge) (closure : pyset) (stack : list string) :
  length stack <= length (snd (closure_for current l (closure, stack))).
Proof.
  revert closure stack. induction l as [| e l IH]; intros closure stack.
  - cbn. lia.
  - rewrite closure_for_cons.
    destruct (closure_visit_cases current closure stack e) as [(_ & _ & _ & ->) | (_ & ->)].
    + specialize (IH (closure ++ [edge2 e]) (edge2 e :: stack)). cbn [length] in IH. lia.
    + apply IH.
Qed.

(** Every pass pushes exactly what it adds to the closure. *)
Lemma closure_for_lengths current (l : list edge) (closure : pyset) (stack : list string) :
  length (fst (closure_for current l (closure, stack))) + length stack
  = length closure + length (snd (closure_for current l (closure, stack))).
Proof.
  revert closure stack. induction l as [| e l IH]; intros closure stack.
  - reflexivity.
  - rewrite closure_for_cons.
    destruct (closure_visit_cases current closure stack e) as [(_ & _ & _ & ->) | (_ & ->)].
    + pose proof (IH (closure ++ [edge2 e]) (edge2 e :: stack)) as H.
      rewrite length_app in H. cbn [length] in H. lia.
    + apply IH.
Qed.

(** While the stack is not empty after [n] iterations, all [n] have run:
    one pop each. *)
Lemma closure_while_running n (closure : pyset) (stack : list string) :
  snd (closure_while n delta closure stack) <> [] ->
  length (fst (closure_while n delta closure stack)) + length stack
  = length closure + length (snd (closure_while n delta closure stack)) + n.
Proof.
  revert closure stack. induction n as [| n IH]; intros closure stack H.
  - destruct stack; cbn; lia.
  - destruct stack as [| current rest]; [now contradiction H |].
    cbn [closure_while] in *.
    pose proof (closure_for_lengths current delta closure rest) as Hl.
    destruct (closure_for current delta (closure, rest)) as [c' s'].
    cbn [fst snd] in Hl. specialize (IH c' s' H). cbn [length]. lia.
Qed.

(** When the loop has exited within [n] iterations, the closure has grown
    by at most [n] minus the pops of the initial stack. *)
Lemma closure_while_exited n (closure : pyset) (stack : list string) :
  snd (closure_while n delta closure stack) = [] ->
  length (fst (closure_while n delta closure stack)) + length stack <= length closure + n.
Proof.
  revert closure stack. induction n as [| n IH]; intros closure stack H.
  - destruct stack; [cbn; lia | discriminate].
  - destruct stack as [| current rest]; [cbn; lia |].
    cbn [closure_while] in *.
    pose proof (closure_for_lengths current delta closure rest) as Hl.
    destruct (closure_for current delta (closure, rest)) as [c' s'].
    cbn [fst snd] in Hl. specialize (IH c' s' H). cbn [length]. lia.
Qed.

(** The closure never shrinks. *)
Lemma closure_while_grows n k (closure : pyset) (stack : list string) :
  length (fst (closure_while n delta closure stack))
  <= length (fst (closure_while (n + k) delta closure stack)).
Proof.
  revert closure stack. induction n as [| n IH]; intros closure stack.
  - cbn [Nat.add]. replace (fst (closure_while 0 delta closure stack)) with closure
      by (destruct stack; reflexivity).
    revert closure stack. induction k as [| k IHk]; intros closure stack.
    + destruct stack; cbn; lia.
    + destruct stack as [| current rest]; [cbn; lia |].
      cbn [closure_while].
      pose proof (closure_for_lengths current delta closure rest) as Hl.
      pose proof (closure_for_post_keep current delta closure rest) as Hk.
      destruct (closure_for current delta (closure, rest)) as [c' s'].
      cbn [fst snd] in Hl, Hk. specialize (IHk c' s'). lia.
  - destruct stack as [| current rest]; [cbn; lia |].
    cbn [closure_while Nat.add].
    destruct (closure_for current delta (closure, rest)) as [c' s']. apply IH.
Qed.

End ClosureLoop.

(** ** The closure loop: what it computes *)

Section ClosureSpec.
Import Closure.
Variable delta : list edge.
Variable state : string.

Lemma In_dec_str (x : string) (l : list string) : In x l \/ ~ In x l.
Proof. destruct (in_dec string_dec x l); auto. Qed.

Lemma closure_for_post current l c s :
  scan_post current l c s
            (fst (closure_for current l (c, s))) (snd (closure_for current l (c, s))).
Proof.
  revert c s. induction l as [| e l IH]; intros c s.
  - cbn. constructor; auto using incl_refl. intros r [].
  - rewrite closure_for_cons.
    destruct (closure_visit_cases current c s e) as [(H0 & H1 & Hn & ->) | (Hno & ->)].
    + destruct e as [[a b] d]. cbn in H0, H1, Hn |- *. subst a b.
      destruct (IH (c ++ [d]) (d :: s)) as [A B C D E F G].
      set (c' := fst (closure_for current l (c ++ [d], d :: s))) in *.
      set (s' := snd (closure_for current l (c ++ [d], d :: s))) in *.
      constructor.
      * intros x Hx. apply A, in_or_app. now left.
      * intros r [Hr | Hr]; [| now apply B].
        inversion Hr; subst. apply A, in_or_app. right. now left.
      * intros q Hq. destruct (C q Hq) as [Hc | Hc]; [| right; now right].
        apply in_app_or in Hc. destruct Hc as [Hc | [<- | []]]; [now left |].
        right. now left.
      * intros q Hq. destruct (D q Hq) as [[<- | Hs] | Hc]; auto.
        right. apply A, in_or_app. right. now left.
      * intros x Hx. apply E. now right.
      * intros q Hq. destruct (F q Hq) as [Hc | Hs]; [| now right].
        apply in_app_or in Hc. destruct Hc as [Hc | [<- | []]]; [now left |].
        right. apply E. now left.
      * intros Hc. apply G. apply NoDup_app; [assumption | repeat constructor; intros [] |].
        intros x Hx [<- | []]. exact (Hn Hx).
    + destruct (IH c s) as [A B C D E F G].
      constructor; auto.
      * intros r [Hr | Hr]; [| now apply B]. subst e. cbn in Hno.
        destruct (In_dec_str r c) as [Hin | Hout]; [now apply A |].
        exfalso. apply Hno. auto.
      * intros q Hq. destruct (C q Hq); auto. right. now right.
Qed.

Lemma closure_inv_init : closure_inv delta state [state] [state].
Proof.
  constructor.
  - now left.
  - intros q [<- | []]. constructor.
  - apply incl_refl.
  - intros q r [<- | []] Hn. exfalso. apply Hn. now left.
  - repeat constructor. intros [].
Qed.

Lemma closure_inv_step current rest c :
  closure_inv delta state c (current :: rest) ->
  closure_inv delta state (fst (closure_for current delta (c, rest)))
              (snd (closure_for current delta (c, rest))).
Proof.
  intros [I1 I2 I3 I4 I5].
  destruct (closure_for_post current delta c rest) as [A B C D E F G].
  set (c' := fst (closure_for current delta (c, rest))) in *.
  set (s' := snd (closure_for current delta (c, rest))) in *.
  constructor.
  - now apply A.
  - intros q Hq. destruct (C q Hq) as [Hc | He]; [now apply I2 |].
    apply eps_step with (q := current); [| assumption].
    apply I2, I3. now left.
  - intros q Hq. destruct (D q Hq) as [Hs | Hc]; [| assumption].
    apply A, I3. now right.
  - intros q r Hq Hns He.
    destruct (F q Hq) as [Hc | Hs]; [| contradiction].
    destruct (string_dec q current) as [-> | Hne]; [now apply B |].
    apply A, (I4 q r Hc); [| assumption].
    intros [Heq | Hr]; [congruence | apply Hns, E, Hr].
  - now apply G.
Qed.

Lemma closure_while_inv n c s :
  closure_inv delta state c s ->
  closure_inv delta state (fst (closure_while n delta c s)) (snd (closure_while n delta c s)).
Proof.
  revert c s. induction n as [| n IH]; intros c s H.
  - destruct s; exact H.
  - destruct s as [| current rest]; [exact H |]. cbn [closure_while].
    pose proof (closure_inv_step current rest c H) as Hs.
    destruct (closure_for current delta (c, rest)) as [c' s']. now apply IH.
Qed.

Lemma closure_inv_complete c :
  closure_inv delta state c [] -> forall q, eps_reach delta state q -> In q c.
Proof.
  intros [I1 I2 I3 I4 I5] q H. induction H as [| q r H IH He].
  - exact I1.
  - apply (I4 q r IH); [intros [] | exact He].
Qed.

Lemma handle_closure_inv :
  closure_inv delta state (handle_closure state delta) [].
Proof.
  pose proof (closure_while_inv (closure_bound delta) [state] [state] closure_inv_init) as H.
  rewrite closure_while_exits in H. exact H.
Qed.

Lemma closure_for_none current c s :
  (forall e, In e delta -> edge0 e = current -> edge1 e <> EPSILON) ->
  forall l, incl l delta -> closure_for current l (c, s) = (c, s).
Proof.
  intros Hno l. induction l as [| e l IH]; intros Hl; [reflexivity |].
  rewrite closure_for_cons.
  destruct (closure_visit_cases current c s e) as [(H0 & H1 & _) | (_ & ->)].
  - exfalso. apply (Hno e); auto. apply Hl. now left.
  - apply IH. intros x Hx. apply Hl. now right.
Qed.

End ClosureSpec.

(** ** [handle_closure]: the two results *)

Section ClosureResults.
Import Closure.

Lemma closure_while_nil n delta c : closure_while n delta c [] = (c, []).
Proof. destruct n; reflexivity. Qed.

(** C6: for every state and every list of rules, [handle_closure] returns
    exactly the states reachable from [state] by zero or more rules labelled
    with the epsilon marker, [state] included, each of them once; a state
    with no outgoing epsilon rule has the closure [{state}]. *)
Theorem handle_closure_exact state delta :
  (forall q, In q (handle_closure state delta) <-> eps_reach delta state q) /\
  NoDup (handle_closure state delta) /\
  ((forall r, ~ In (state, EPSILON, r) delta) -> handle_closure state delta = [state]).
Proof.
  pose proof (handle_closure_inv delta state) as Hinv.
  split; [| split].
  - intros q. split.
    + apply (ci_sound _ _ _ _ Hinv).
    + apply (closure_inv_complete delta state _ Hinv).
  - apply (ci_nodup _ _ _ _ Hinv).
  - intros Hno. unfold handle_closure, closure_bound. cbn [closure_while].
    rewrite (closure_for_none delta state [state] []).
    + now rewrite closure_while_nil.
    + intros [[a b] d] He H0 H1. cbn in H0, H1. subst a b. exact (Hno d He).
    + apply incl_refl.
Qed.

(** In the rules [q0 & q1], [q1 a q0] the state [q1] has no epsilon rule,
    and its closure is [{q1}]. *)
Lemma handle_closure_exact_witness :
  (forall r, ~ In ("q1", EPSILON, r) [("q0", "&", "q1"); ("q1", "a", "q0")]) /\
  handle_closure "q1" [("q0", "&", "q1"); ("q1", "a", "q0")] = ["q1"].
Proof.
  assert (H : forall r, ~ In ("q1", EPSILON, r) [("q0", "&", "q1"); ("q1", "a", "q0")]).
  { intros r [H | [H | []]]; discriminate H. }
  split; [exact H |].
  exact (proj2 (proj2 (handle_closure_exact "q1" [("q0", "&", "q1"); ("q1", "a", "q0")])) H).
Defined.

(** C7: [handle_closure] terminates on every state and every finite list of
    rules, cyclic epsilon rules included.  The [while] loop empties its
    stack after exactly as many iterations as the closure has states (each
    state is added to the closure, pushed and popped once), which is at most
    one more than there are rules; further iterations would change nothing,
    the closure returned is the one reached there, and it holds no state
    twice. *)
Theorem handle_closure_terminates state delta :
  exists n,
    n = length (handle_closure state delta) /\
    n <= S (length delta) /\
    snd (closure_while n delta [state] [state]) = [] /\
    (forall m, m < n -> snd (closure_while m delta [state] [state]) <> []) /\
    (forall m, closure_while (n + m) delta [state] [state]
               = closure_while n delta [state] [state]) /\
    fst (closure_while n delta [state] [state]) = handle_closure state delta /\
    NoDup (handle_closure state delta).
Proof.
  pose proof (closure_while_exits delta state) as Hexit.
  pose proof (closure_while_exited delta _ _ _ Hexit) as Hbound.
  fold (handle_closure state delta) in Hbound. unfold closure_bound in Hbound.
  cbn [length] in Hbound.
  set (n := length (handle_closure state delta)) in *.
  assert (Hn : snd (closure_while n delta [state] [state]) = []).
  { destruct (snd (closure_while n delta [state] [state])) as [| x rest] eqn:E;
      [reflexivity | exfalso].
    assert (Hne : snd (closure_while n delta [state] [state]) <> [])
      by (rewrite E; discriminate).
    pose proof (closure_while_running delta n [state] [state] Hne) as Hrun.
    pose proof (closure_while_grows delta n (closure_bound delta - n) [state] [state]) as Hg.
    replace (n + (closure_bound delta - n)) with (closure_bound delta) in Hg
      by (unfold closure_bound; lia).
    fold (handle_closure state delta) in Hg. fold n in Hg.
    rewrite E in Hrun. cbn [length] in Hrun. lia. }
  assert (Hsame : closure_while n delta [state] [state]
                  = closure_while (closure_bound delta) delta [state] [state]).
  { replace (closure_bound delta) with (n + (closure_bound delta - n))
      by (unfold closure_bound; lia).
    symmetry. now apply closure_while_stable. }
  exists n. split; [reflexivity |]. split; [lia |]. split; [exact Hn |].
  split; [| split; [| split]].
  - intros m Hm Hm0.
    assert (Hm' : closure_while m delta [state] [state]
                  = closure_while (closure_bound delta) delta [state] [state]).
    { replace (closure_bound delta) with (m + (closure_bound delta - m))
        by (unfold closure_bound; lia).
      symmetry. now apply closure_while_stable. }
    pose proof (closure_while_exited delta _ _ _ Hm0) as Hle.
    rewrite Hm' in Hle. fold (handle_closure state delta) in Hle. fold n in Hle.
    cbn [length] in Hle. lia.
  - intros m. now apply closure_while_stable.
  - now rewrite Hsame.
  - apply (ci_nodup _ _ _ _ (handle_closure_inv delta state)).
Qed.

(** Two states on an epsilon cycle: the loop exits after two iterations. *)
Example handle_closure_cycle :
  handle_closure "q0" [("q0", "&", "q1"); ("q1", "&", "q0")] = ["q0"; "q1"] /\
  closure_while 2 [("q0", "&", "q1"); ("q1", "&", "q0")] ["q0"] ["q0"] = (["q0"; "q1"], []).
Proof. split; reflexivity. Qed.

End ClosureResults.

(** ** [process] *)

Section EvaluatorResults.
Import Evaluator.

Lemma symbols_of_app u v : symbols_of (u ++ v)%string = symbols_of u ++ symbols_of v.
Proof. induction u as [| c u IH]; cbn; [reflexivity | now rewrite IH]. Qed.

Lemma run_symbols_app alphabet delta q u v r :
  run_symbols alphabet delta q u = Some r ->
  run_symbols alphabet delta q (u ++ v) = run_symbols alphabet delta r v.
Proof.
  revert q. induction u as [| a u IH]; intros q H; cbn in *.
  - now inversion H.
  - destruct (set_in a alphabet); cbn in *; [now apply IH | discriminate].
Qed.

Lemma follow_missing delta q symbol :
  (forall e, In e delta -> ~ (edge0 e = q /\ edge1 e = symbol)) ->
  follow delta q symbol = q.
Proof.
  induction delta as [| e delta IH]; intros Hno; cbn; [reflexivity |].
  destruct (String.eqb_spec (edge0 e) q) as [H0 | H0];
    destruct (String.eqb_spec (edge1 e) symbol) as [H1 | H1]; cbn;
    try (apply IH; intros e' He'; apply Hno; now right).
  exfalso. apply (Hno e); [now left | now split].
Qed.

Lemma process_one automata word :
  process automata [word] =
  [(word, classify (a_alphabet automata) (a_delta automata) (a_initial_state automata)
                   (a_final_states automata) word)].
Proof. reflexivity. Qed.

Lemma run_symbols_known alphabet delta q symbols :
  forallb (fun symbol => set_in symbol alphabet) symbols = true ->
  exists r, run_symbols alphabet delta q symbols = Some r.
Proof.
  revert q. induction symbols as [| a symbols IH]; intros q H; cbn in *.
  - now exists q.
  - apply andb_true_iff in H. destruct H as [Ha Hrest]. rewrite Ha. cbn. now apply IH.
Qed.

(** C5: when the symbol read is in the alphabet and no rule matches the
    pair (current state, symbol), [process] keeps the current state and goes
    on with the rest of the word; the word is not rejected at the missing
    rule but classified by the run from that same state over the remaining
    symbols: when these are all in the alphabet, ACEITA or REJEITA by the
    state in which the run ends. *)
Theorem process_missing_transition automata pre c post q :
  run_symbols (a_alphabet automata) (a_delta automata) (a_initial_state automata)
              (symbols_of pre) = Some q ->
  set_in (String c "") (a_alphabet automata) = true ->
  (forall e, In e (a_delta automata) -> ~ (edge0 e = q /\ edge1 e = String c "")) ->
  follow (a_delta automata) q (String c "") = q /\
  run_symbols (a_alphabet automata) (a_delta automata) (a_initial_state automata)
              (symbols_of (pre ++ String c post)%string)
  = run_symbols (a_alphabet automata) (a_delta automata) q (symbols_of post) /\
  process automata [(pre ++ String c post)%string] =
  [((pre ++ String c post)%string,
    match run_symbols (a_alphabet automata) (a_delta automata) q (symbols_of post) with
    | None => "INVALIDA"
    | Some r => if set_in r (a_final_states automata) then "ACEITA" else "REJEITA"
    end)] /\
  (forallb (fun symbol => set_in symbol (a_alphabet automata)) (symbols_of post) = true ->
   exists r,
     run_symbols (a_alphabet automata) (a_delta automata) q (symbols_of post) = Some r /\
     process automata [(pre ++ String c post)%string] =
     [((pre ++ String c post)%string,
       if set_in r (a_final_states automata) then "ACEITA" else "REJEITA")]).
Proof.
  intros Hpre Hin Hno.
  pose proof (follow_missing _ _ _ Hno) as Hf.
  assert (Hrun :
    run_symbols (a_alphabet automata) (a_delta automata) (a_initial_state automata)
                (symbols_of (pre ++ String c post)%string)
    = run_symbols (a_alphabet automata) (a_delta automata) q (symbols_of post)).
  { rewrite symbols_of_app, (run_symbols_app _ _ _ _ _ _ Hpre).
    cbn [symbols_of run_symbols]. now rewrite Hin, Hf. }
  assert (Hproc :
    process automata [(pre ++ String c post)%string] =
    [((pre ++ String c post)%string,
      match run_symbols (a_alphabet automata) (a_delta automata) q (symbols_of post) with
      | None => "INVALIDA"
      | Some r => if set_in r (a_final_states automata) then "ACEITA" else "REJEITA"
      end)]).
  { rewrite process_one. unfold classify. now rewrite Hrun. }
  split; [exact Hf |]. split; [exact Hrun |]. split; [exact Hproc |].
  intros Hknown.
  destruct (run_symbols_known _ (a_delta automata) q _ Hknown) as [r Hr].
  exists r. split; [exact Hr |]. now rewrite Hproc, Hr.
Qed.

(** On the automaton with the single rule [q0 a q1] the word [ab] meets no
    rule for [b] in [q1], stays there and is accepted. *)
Lemma process_missing_transition_witness :
  process Samples.one_rule ["ab"] = [("ab", "ACEITA")].
Proof.
  refine (proj1 (proj2 (proj2 (process_missing_transition Samples.one_rule
                                 "a" "b"%char "" "q1" eq_refl eq_refl _)))).
  intros e [<- | []] [_ H]. discriminate H.
Defined.

(** C10: [process] never consults the declared states: two automata that
    differ at most in their first component classify every list of words
    alike. *)
Theorem process_ignores_states (automata1 automata2 : automaton) words :
  a_alphabet automata1 = a_alphabet automata2 ->
  a_delta automata1 = a_delta automata2 ->
  a_initial_state automata1 = a_initial_state automata2 ->
  a_final_states automata1 = a_final_states automata2 ->
  process automata1 words = process automata2 words.
Proof.
  intros Halphabet Hdelta Hinitial Hfinal. unfold process.
  rewrite Halphabet, Hdelta, Hinitial, Hfinal. reflexivity.
Qed.

(** The automaton with the single rule [q0 a q1] declared with the states
    [("q0", "q1")] and with the single [str] ["q1"]. *)
Lemma process_ignores_states_witness :
  a_states Samples.one_rule <> a_states Samples.one_rule_dfa /\
  process Samples.one_rule ["a"; "ab"; "ba"; "c"]
  = process Samples.one_rule_dfa ["a"; "ab"; "ba"; "c"].
Proof.
  split; [discriminate |].
  exact (process_ignores_states Samples.one_rule Samples.one_rule_dfa
           ["a"; "ab"; "ba"; "c"] eq_refl eq_refl eq_refl eq_refl).
Defined.

End EvaluatorResults.

(** ** [load_automata] *)

Section LoaderResults.
Import Loader.

Lemma check_final_states_cases states final_states :
  ((forall f, In f final_states -> In f states) /\
   check_final_states states final_states = Ok tt)
  \/
  ((exists f, In f final_states /\ ~ In f states) /\
   check_final_states states final_states = Raise (ValueError "invalid final state")).
Proof.
  induction final_states as [| f rest IH]; cbn.
  - left. split; [intros f [] | reflexivity].
  - destruct (set_in f states) eqn:E; cbn.
    + apply set_in_In in E. destruct IH as [[Hall ->] | [[g [Hg Hn]] ->]].
      * left. split; [| reflexivity]. intros g [<- | Hg]; auto.
      * right. split; [| reflexivity]. exists g. auto.
    + apply set_in_false in E. right. split; [| reflexivity]. exists f. auto.
Qed.

Lemma edge_ok_spec (p : parsed) edge :
  3 <= length edge ->
  (edge_valid p edge /\ edge_ok (p_states p) (p_alphabet p) edge = Ok true) \/
  (~ edge_valid p edge /\ edge_ok (p_states p) (p_alphabet p) edge = Ok false).
Proof.
  intros Hlen.
  destruct edge as [| e0 [| e1 [| e2 more]]]; cbn in Hlen; try lia.
  unfold edge_ok, edge_valid, item. cbn [nth_error bind].
  destruct (set_in e0 (p_states p)) eqn:E0.
  - destruct (set_in e1 (p_alphabet p)) eqn:E1; cbn [orb].
    + destruct (set_in e2 (p_states p)) eqn:E2.
      * left. split; [| reflexivity]. exists e0, e1, e2.
        apply set_in_In in E0, E1, E2. auto 10.
      * right. split; [| reflexivity]. intros (x0 & x1 & x2 & H0 & H1 & H2 & _ & _ & Hin).
        inversion H2; subst. apply set_in_false in E2. contradiction.
    + destruct (String.eqb_spec e1 EPSILON) as [Heps | Hne].
      * destruct (set_in e2 (p_states p)) eqn:E2.
        -- left. split; [| reflexivity]. exists e0, e1, e2.
           apply set_in_In in E0, E2. auto 10.
        -- right. split; [| reflexivity].
           intros (x0 & x1 & x2 & H0 & H1 & H2 & _ & _ & Hin).
           inversion H2; subst x2. apply set_in_false in E2. contradiction.
      * right. split; [| reflexivity].
        intros (x0 & x1 & x2 & H0 & H1 & H2 & _ & [Hin | Heq] & _);
          inversion H1; subst x1; [| contradiction].
        apply set_in_false in E1. contradiction.
  - right. split; [| reflexivity].
    intros (x0 & x1 & x2 & H0 & H1 & H2 & Hin & _). inversion H0; subst x0.
    apply set_in_false in E0. contradiction.
Qed.

Lemma check_delta_cases (p : parsed) delta :
  (forall edge, In edge delta -> 3 <= length edge) ->
  ((forall edge, In edge delta -> edge_valid p edge) /\
   check_delta (p_states p) (p_alphabet p) delta = Ok tt)
  \/
  ((exists edge, In edge delta /\ ~ edge_valid p edge) /\
   check_delta (p_states p) (p_alphabet p) delta = Raise (ValueError "invalid edge")).
Proof.
  induction delta as [| edge rest IH]; intros Hlen; cbn [check_delta].
  - left. split; [intros e [] | reflexivity].
  - assert (H3 : 3 <= length edge) by (apply Hlen; now left).
    assert (Hrest : forall e, In e rest -> 3 <= length e) by (intros e He; apply Hlen; now right).
    destruct (edge_ok_spec p edge H3) as [[Hv ->] | [Hv ->]]; cbn [bind negb].
    + destruct (IH Hrest) as [[Hall ->] | [[g [Hg Hn]] ->]].
      * left. split; [| reflexivity]. intros g [<- | Hg]; auto.
      * right. split; [| reflexivity]. exists g. split; [now right | assumption].
    + right. split; [| reflexivity]. exists edge. split; [now left | assumption].
Qed.

Lemma validate_cases (p : parsed) :
  (forall edge, In edge (p_delta p) -> 3 <= length edge) ->
  (invariants p /\
   validate p = Ok (p_states p, p_alphabet p, p_delta p, p_initial_state p, p_final_states p))
  \/
  (violation p /\
   exists msg, validate p = Raise (ValueError msg) /\
     (msg = "invalid initial state" \/ msg = "invalid final state" \/ msg = "invalid edge")).
Proof.
  intros Hlen. unfold validate, invariants, violation.
  destruct (set_in (p_initial_state p) (p_states p)) eqn:Ei; cbn [negb].
  - apply set_in_In in Ei.
    destruct (check_final_states_cases (p_states p) (p_final_states p))
      as [[Hf ->] | [Hf ->]]; cbn [bind].
    + destruct (check_delta_cases p (p_delta p) Hlen) as [[Hd ->] | [Hd ->]];
        cbn [bind].
      * left. auto.
      * right. split; [auto |]. exists "invalid edge". auto.
    + right. split; [auto |]. exists "invalid final state". auto.
  - apply set_in_false in Ei. right. split; [auto |].
    exists "invalid initial state". auto.
Qed.

Lemma violation_breaks_invariants (p : parsed) : violation p -> ~ invariants p.
Proof.
  intros [Hi | [[f [Hf Hn]] | [e [He Hn]]]] (Ii & If & Ie).
  - exact (Hi Ii).
  - exact (Hn (If f Hf)).
  - exact (Hn (Ie e He)).
Qed.

(** C8: when every rule line has at least three tokens, [load_automata]
    raises a [ValueError] (invalid initial state, invalid final state or
    invalid edge) exactly when the initial state is not among the declared
    states, or a final state is not among them, or a rule has an origin or a
    destination that is not a declared state or a label that is neither in
    the alphabet nor the marker [&]; that is, exactly when the parsed
    components break an invariant of the data model.  On components that
    satisfy them all it returns the tuple (states, alphabet, delta,
    initial_state, final_states) of the parsed components as they are. *)
Theorem load_automata_validates lines :
  (forall edge, In edge (p_delta (parse lines)) -> 3 <= length edge) ->
  ((exists msg, load_automata lines = Raise (ValueError msg)) <-> violation (parse lines)) /\
  (violation (parse lines) <-> ~ invariants (parse lines)) /\
  (forall msg, load_automata lines = Raise (ValueError msg) ->
     msg = "invalid initial state" \/ msg = "invalid final state" \/ msg = "invalid edge") /\
  (invariants (parse lines) ->
   load_automata lines =
   Ok (p_states (parse lines), p_alphabet (parse lines), p_delta (parse lines),
       p_initial_state (parse lines), p_final_states (parse lines))).
Proof.
  intros Hlen. unfold load_automata.
  destruct (validate_cases (parse lines) Hlen) as [[Hinv Hok] | [Hbad [msg [Hraise Hmsg]]]].
  - rewrite Hok. split; [| split; [| split]].
    + split; [intros [msg H]; discriminate H |].
      intros H. now apply violation_breaks_invariants in H.
    + split; [apply violation_breaks_invariants | intros H; contradiction].
    + intros msg H. discriminate H.
    + reflexivity.
  - rewrite Hraise. pose proof (violation_breaks_invariants _ Hbad) as Hn.
    split; [| split; [| split]].
    + split; [intros _; exact Hbad | intros _; now exists msg].
    + split; [intros _; exact Hn | intros _; exact Hbad].
    + intros msg' H. inversion H; subst. exact Hmsg.
    + intros H. contradiction.
Qed.

(** The sample file of the docstring is loaded as it is written. *)
Lemma load_automata_validates_witness :
  load_automata Samples.sample_file =
  Ok (["q0"; "q1"; "q2"; "q3"], ["a"; "b"],
      [["q0"; "a"; "q1"]; ["q0"; "b"; "q2"]; ["q1"; "a"; "q0"]; ["q1"; "b"; "q3"];
       ["q2"; "a"; "q3"]; ["q2"; "b"; "q0"]; ["q3"; "a"; "q1"]; ["q3"; "b"; "q2"]],
      "q0", ["q0"; "q3"]).
Proof.
  assert (Hlen : forall edge, In edge (p_delta (parse Samples.sample_file)) ->
                              3 <= length edge).
  { vm_compute. intros edge H.
    repeat (destruct H as [<- | H]; [vm_compute; lia |]). destruct H. }
  refine (proj2 (proj2 (proj2 (load_automata_validates Samples.sample_file Hlen))) _).
  vm_compute. split; [| split].
  - auto.
  - intros f [<- | [<- | []]]; auto 10.
  - intros edge H.
    repeat (destruct H as [<- | H];
            [eexists _, _, _; repeat split; try reflexivity; cbn; auto 10 |]).
    destruct H.
Defined.

Lemma parse_alphabet lines :
  p_alphabet (parse lines) = split (strip (fst (readline lines))).
Proof. destruct lines as [| l0 [| l1 [| l2 [| l3 rest]]]]; reflexivity. Qed.

(** C9 fails: a file whose alphabet line declares the marker [&] is loaded
    without an error, and the marker is stored in the alphabet. *)
Lemma load_automata_keeps_marker :
  In EPSILON (split (strip (fst (readline Samples.marker_file)))) /\
  load_automata Samples.marker_file =
  Ok (["q0"], ["a"; "&"], [["q0"; "a"; "q0"]], "q0", ["q0"]).
Proof. split; [vm_compute; auto | reflexivity]. Qed.

Lemma edge_ok_more states alphabet x edge :
  edge_ok states alphabet edge = Ok true ->
  edge_ok states (alphabet ++ [x]) edge = Ok true.
Proof.
  unfold edge_ok, item.
  destruct (nth_error edge 0) as [e0 |]; cbn [bind]; [| discriminate].
  destruct (set_in e0 states); [| discriminate].
  destruct (nth_error edge 1) as [e1 |]; cbn [bind]; [| discriminate].
  rewrite set_in_app.
  destruct (set_in e1 alphabet); cbn [orb]; [tauto |].
  destruct (e1 =? EPSILON); cbn [orb]; [| discriminate].
  rewrite orb_true_r. tauto.
Qed.

Lemma check_delta_more states alphabet x delta :
  check_delta states alphabet delta = Ok tt ->
  check_delta states (alphabet ++ [x]) delta = Ok tt.
Proof.
  induction delta as [| edge rest IH]; cbn [check_delta]; [tauto |].
  destruct (edge_ok states alphabet edge) as [[|] | err] eqn:E; cbn [bind negb];
    try discriminate.
  rewrite (edge_ok_more _ _ x _ E). cbn [bind negb]. exact IH.
Qed.

(** C9, amended: [load_automata] does not compare the alphabet line with
    the marker.  Whenever it returns, the alphabet of the tuple is the list
    of tokens of the first line of the file, so it holds [&] exactly when
    that line has the token [&]; and the components of an accepted file are
    accepted as well once [&] is added to the alphabet. *)
Theorem load_automata_alphabet lines states alphabet delta initial_state final_states :
  load_automata lines = Ok (states, alphabet, delta, initial_state, final_states) ->
  alphabet = split (strip (fst (readline lines))) /\
  (In EPSILON alphabet <-> In EPSILON (split (strip (fst (readline lines))))) /\
  validate (mk_parsed (alphabet ++ [EPSILON]) states final_states initial_state delta)
  = Ok (states, alphabet ++ [EPSILON], delta, initial_state, final_states).
Proof.
  intros H. unfold load_automata, validate in H.
  destruct (set_in (p_initial_state (parse lines)) (p_states (parse lines))) eqn:Ei;
    cbn [negb] in H; [| discriminate].
  destruct (check_final_states _ _) as [[] |] eqn:Ef; cbn [bind] in H; [| discriminate].
  destruct (check_delta _ _ _) as [[] |] eqn:Ed; cbn [bind] in H; [| discriminate].
  inversion H; subst; clear H.
  rewrite parse_alphabet. split; [reflexivity |]. split; [tauto |].
  unfold validate. cbn [p_initial_state p_states p_final_states p_alphabet p_delta].
  rewrite Ei, Ef. cbn [negb bind].
  rewrite <- parse_alphabet, (check_delta_more _ _ EPSILON _ Ed). reflexivity.
Qed.

(** The file [marker_file], whose alphabet line is [a &], is accepted with
    the alphabet [("a", "&")]. *)
Lemma load_automata_alphabet_witness :
  ["a"; "&"] = split (strip (fst (readline Samples.marker_file))) /\
  (In EPSILON ["a"; "&"] <-> In EPSILON (split (strip (fst (readline Samples.marker_file))))) /\
  validate (mk_parsed (["a"; "&"] ++ [EPSILON]) ["q0"] ["q0"] "q0" [["q0"; "a"; "q0"]])
  = Ok (["q0"], ["a"; "&"] ++ [EPSILON], [["q0"; "a"; "q0"]], "q0", ["q0"]).
Proof.
  exact (load_automata_alphabet Samples.marker_file
           ["q0"] ["a"; "&"] [["q0"; "a"; "q0"]] "q0" ["q0"] eq_refl).
Defined.

End LoaderResults.

(** ** [convert_to_dfa] *)

Section DeterminizerResults.
Import Closure Determinizer Evaluator Samples.

(** Iterations that were enough stay enough. *)
Lemma subset_while_more fuel k alphabet delta queue watched new_states new_delta r :
  subset_while fuel alphabet delta queue watched new_states new_delta = Some r ->
  subset_while (fuel + k) alphabet delta queue watched new_states new_delta = Some r.
Proof.
  revert queue watched new_states new_delta.
  induction fuel as [| fuel IH]; intros queue watched new_states new_delta H.
  - destruct queue; [| discriminate]. destruct k; exact H.
  - destruct queue as [| current queue]; [exact H |].
    cbn [subset_while Nat.add] in *.
    destruct (fold_left (symbol_step delta current) alphabet (new_delta, watched, queue))
      as [[nd w] q].
    now apply IH.
Qed.

Lemma convert_to_dfa_more fuel k automata dfa :
  convert_to_dfa fuel automata = Some dfa ->
  convert_to_dfa (fuel + k) automata = Some dfa.
Proof.
  unfold convert_to_dfa. intros H.
  destruct (subset_while fuel _ _ _ _ _ _) as [[ns nd] |] eqn:E; [| discriminate].
  now rewrite (subset_while_more _ k _ _ _ _ _ _ _ E).
Qed.

Lemma convert_to_dfa_from fuel0 automata dfa :
  convert_to_dfa fuel0 automata = Some dfa ->
  forall fuel, fuel0 <= fuel -> convert_to_dfa fuel automata = Some dfa.
Proof.
  intros H fuel Hle. replace fuel with (fuel0 + (fuel - fuel0)) by lia.
  now apply convert_to_dfa_more.
Qed.

Lemma convert_one_rule fuel : 2 <= fuel -> convert_to_dfa fuel one_rule = Some one_rule_dfa.
Proof. apply convert_to_dfa_from. reflexivity. Qed.

Lemma convert_self_loop fuel : 2 <= fuel -> convert_to_dfa fuel self_loop = Some self_loop_dfa.
Proof. apply convert_to_dfa_from. reflexivity. Qed.

Lemma convert_names fuel : 4 <= fuel -> convert_to_dfa fuel names = Some names_dfa.
Proof. apply convert_to_dfa_from. reflexivity. Qed.

Lemma one_rule_rejects_ab : ~ NFA.accepts one_rule "ab".
Proof.
  intros [q [Hrun Hfin]]. cbn in Hrun.
  inversion Hrun as [| ? ? ? ? He | ? ? r ? ? _ He Hrest]; subst.
  - in_rules He.
  - in_rules He.
    inversion Hrest as [| ? ? ? ? He' | ? ? ? ? ? _ He' _]; subst; in_rules He'.
Qed.

Lemma names_rejects_y : ~ NFA.accepts names "y".
Proof.
  intros [q [Hrun Hfin]]. cbn in Hrun, Hfin.
  inversion Hrun as [| ? ? ? ? He | ? ? r ? ? _ He Hrest]; subst.
  - in_rules He.
  - in_rules He.
    inversion Hrest as [| ? ? ? ? He' |]; subst.
    + destruct Hfin as [H | []]. discriminate H.
    + in_rules He'.
Qed.

(** C1 does not hold of the code: the automaton returned by
    [convert_to_dfa], evaluated by [process], classifies words differently
    from the language of the original automaton.  On the automaton [names],
    which has a rule for every state and symbol, the word [y] is accepted
    after determinisation and rejected by the original (also when [process]
    itself evaluates the original); on the automaton with the single rule
    [q0 a q1] the word [ab] is accepted after determinisation and rejected
    by the original. *)
Theorem convert_to_dfa_changes_language :
  (forall fuel, 4 <= fuel -> convert_to_dfa fuel names = Some names_dfa) /\
  process names_dfa ["y"] = [("y", "ACEITA")] /\
  NFA.classifies names "y" "REJEITA" /\
  process names ["y"] = [("y", "REJEITA")] /\
  (forall fuel, 2 <= fuel -> convert_to_dfa fuel one_rule = Some one_rule_dfa) /\
  process one_rule_dfa ["ab"] = [("ab", "ACEITA")] /\
  NFA.classifies one_rule "ab" "REJEITA".
Proof.
  split; [exact convert_names |].
  split; [reflexivity |].
  split; [right; split; [exact names_rejects_y | reflexivity] |].
  split; [reflexivity |].
  split; [exact convert_one_rule |].
  split; [reflexivity |].
  right. split; [exact one_rule_rejects_ab | reflexivity].
Qed.

(** C2 does not hold of the code: the closure of the initial state is not
    put in [watched], so it is queued again when it is reached and its rules
    are emitted twice; and two different sets of states may be given the
    same label, whose rules then disagree. *)
Theorem convert_to_dfa_repeats_rules :
  (forall fuel, 2 <= fuel -> convert_to_dfa fuel self_loop = Some self_loop_dfa) /\
  a_delta self_loop_dfa = [("q0", "a", "q0"); ("q0", "a", "q0")] /\
  ~ deterministic (a_delta self_loop_dfa) /\
  (forall fuel, 4 <= fuel -> convert_to_dfa fuel names = Some names_dfa) /\
  In ("aaa", "x", "s") (a_delta names_dfa) /\
  In ("aaa", "x", "aaa") (a_delta names_dfa) /\
  ~ functional (a_delta names_dfa).
Proof.
  split; [exact convert_self_loop |].
  split; [reflexivity |].
  split.
  { intros H. specialize (H 0 1 ("q0", "a", "q0") ("q0", "a", "q0")
                            eq_refl eq_refl eq_refl eq_refl). discriminate H. }
  split; [exact convert_names |].
  assert (H1 : In ("aaa", "x", "s") (a_delta names_dfa)) by (cbn; auto 10).
  assert (H2 : In ("aaa", "x", "aaa") (a_delta names_dfa)) by (cbn; auto 10).
  split; [exact H1 |]. split; [exact H2 |].
  intros H. specialize (H _ _ H1 H2 eq_refl eq_refl). discriminate H.
Qed.

Lemma format_states_last new_states new_state :
  format_states (new_states ++ [new_state]) = PyStr (join new_state).
Proof. unfold format_states. now rewrite fold_left_app. Qed.

Lemma subset_while_states fuel alphabet delta queue watched new_states new_delta ns nd :
  subset_while fuel alphabet delta queue watched new_states new_delta = Some (ns, nd) ->
  queue <> [] \/ new_states <> [] -> ns <> [].
Proof.
  revert queue watched new_states new_delta.
  induction fuel as [| fuel IH]; intros queue watched new_states new_delta H Hne.
  - destruct queue; [| discriminate]. inversion H; subst. destruct Hne; congruence.
  - destruct queue as [| current queue].
    + inversion H; subst. destruct Hne; congruence.
    + cbn [subset_while] in H.
      destruct (fold_left (symbol_step delta current) alphabet (new_delta, watched, queue))
        as [[nd' w'] q'].
      apply (IH _ _ _ _ H). right. now destruct new_states.
Qed.

(** C3 does not hold of the code: the loop that formats the states assigns
    the joined label at every pass instead of appending it, so the states
    component returned is one [str], the label of the set processed last,
    whatever the automaton.  On the automaton with the single rule
    [q0 a q1] it is ["q1"], and neither the new initial state [q0] nor the
    origin of the emitted rule occurs in it. *)
Theorem convert_to_dfa_states_component :
  (forall fuel automata dfa,
      convert_to_dfa fuel automata = Some dfa -> exists label, a_states dfa = PyStr label) /\
  (forall fuel, 2 <= fuel -> convert_to_dfa fuel one_rule = Some one_rule_dfa) /\
  a_states one_rule_dfa = PyStr "q1" /\
  py_in (a_initial_state one_rule_dfa) (a_states one_rule_dfa) = false /\
  (exists e, In e (a_delta one_rule_dfa) /\ py_in (edge0 e) (a_states one_rule_dfa) = false).
Proof.
  split.
  { intros fuel automata dfa H. unfold convert_to_dfa in H.
    destruct (subset_while fuel _ _ _ _ _ _) as [[ns nd] |] eqn:E; [| discriminate].
    inversion H; subst; clear H. cbn [a_states].
    assert (Hne : ns <> []).
    { apply (subset_while_states _ _ _ _ _ _ _ _ _ E). left. discriminate. }
    destruct (exists_last Hne) as [front [lst ->]].
    exists (join lst). apply format_states_last. }
  split; [exact convert_one_rule |].
  split; [reflexivity |].
  split; [reflexivity |].
  exists ("q0", "a", "q1"). split; [now left | reflexivity].
Qed.

(** C4 does not hold of the code: the label of a set is [''.join] of its
    members, with no separator, and two different sets can receive the same
    label.  In the run of [convert_to_dfa] on [names] the sets [{a, aa}]
    and [{aaa}] are both processed; they are different sets, and in
    whichever order [{a, aa}] is iterated its label is [aaa], the label of
    [{aaa}].  The automaton returned has, from the one label [aaa], the rule
    to [s] that comes from [{aaa}] and the rule to [aaa] that comes from
    [{a, aa}]. *)
Theorem convert_to_dfa_label_collision :
  (exists new_delta,
      subset_while 4 (a_alphabet names) (a_delta names)
                   [handle_closure (a_initial_state names) (a_delta names)] [] [] []
      = Some ([["s"]; ["aaa"]; ["s"]; ["a"; "aa"]], new_delta) /\
      In (["aaa"], "x", ["s"]) new_delta /\
      In (["a"; "aa"], "x", ["a"; "aa"]) new_delta) /\
  set_eqb ["a"; "aa"] ["aaa"] = false /\
  (forall members, Permutation ["a"; "aa"] members -> join members = join ["aaa"]) /\
  (forall fuel, 4 <= fuel -> convert_to_dfa fuel names = Some names_dfa) /\
  In ("aaa", "x", "s") (a_delta names_dfa) /\
  In ("aaa", "x", "aaa") (a_delta names_dfa).
Proof.
  split.
  { eexists. split; [vm_compute; reflexivity |]. split; cbn; auto 10. }
  split; [reflexivity |].
  split.
  { intros members H. apply Permutation_length_2_inv in H.
    destruct H as [-> | ->]; reflexivity. }
  split; [exact convert_names |].
  split; cbn; auto 10.
Qed.

End DeterminizerResults.

(** ** The examples of the specification *)

Section SpecExamples.
Import Closure Evaluator Loader Samples.

(** [ab] and [aa] are accepted by the sample automaton, [c] is not a word
    over its alphabet, and the empty word is classified by the initial
    state. *)
Example process_sample :
  process sample ["ab"; "aa"; "c"; ""] =
  [("ab", "ACEITA"); ("aa", "ACEITA"); ("c", "INVALIDA"); ("", "ACEITA")].
Proof. reflexivity. Qed.

(** A word given twice keeps one entry. *)
Example process_repeated_word :
  process sample ["ab"; "b"; "ab"] = [("ab", "ACEITA"); ("b", "REJEITA")].
Proof. reflexivity. Qed.

(** With the rule [q0 & q1] and no other rule from [q0], the closure of
    [q0] is [{q0, q1}]. *)
Example handle_closure_q0 :
  handle_closure "q0" [("q0", "&", "q1")] = ["q0"; "q1"].
Proof. reflexivity. Qed.

Example split_line :
  split (strip "  q0   q1	q2
") = ["q0"; "q1"; "q2"] /\ strip " q0
" = "q0" /\ split "" = [].
Proof. repeat split. Qed.

End SpecExamples.

(** ** [process]: further properties *)

Section EvaluatorMore.
Import Evaluator.

Lemma dict_get_set_same k v d : dict_get k (dict_set k v d) = Some v.
Proof.
  induction d as [| [k' v'] d IH]; cbn.
  - now rewrite String.eqb_refl.
  - destruct (String.eqb_spec k' k) as [-> | Hne]; cbn.
    + now rewrite String.eqb_refl.
    + destruct (String.eqb_spec k' k); [contradiction | exact IH].
Qed.

Lemma dict_get_set_other k k' v d : k <> k' -> dict_get k' (dict_set k v d) = dict_get k' d.
Proof.
  intros Hne. induction d as [| [k0 v0] d IH]; cbn.
  - destruct (String.eqb_spec k k'); [contradiction | reflexivity].
  - destruct (String.eqb_spec k0 k) as [-> | Hk]; cbn.
    + destruct (String.eqb_spec k k'); [contradiction | reflexivity].
    + destruct (String.eqb_spec k0 k'); [reflexivity | exact IH].
Qed.

Lemma dict_set_keys k v d :
  map fst (dict_set k v d) = if set_in k (map fst d) then map fst d else map fst d ++ [k].
Proof.
  induction d as [| [k' v'] d IH]; cbn; [reflexivity |].
  rewrite (String.eqb_sym k k').
  destruct (String.eqb_spec k' k) as [-> | Hne]; cbn; [reflexivity |].
  rewrite IH. unfold set_in. now destruct (existsb (String.eqb k) (map fst d)).
Qed.

Lemma dict_set_keys_nodup k v d : NoDup (map fst d) -> NoDup (map fst (dict_set k v d)).
Proof.
  intros H. rewrite dict_set_keys. destruct (set_in k (map fst d)) eqn:E; [exact H |].
  apply set_in_false in E. apply NoDup_app; [exact H | repeat constructor; intros [] |].
  intros x Hx [<- | []]. exact (E Hx).
Qed.

Lemma dict_set_values (P : string * string -> Prop) k v d :
  P (k, v) -> Forall P d -> Forall P (dict_set k v d).
Proof.
  intros Hk Hd. induction Hd as [| [k' v'] d Hx Hd IH]; cbn.
  - repeat constructor. exact Hk.
  - destruct (k' =? k); constructor; assumption.
Qed.

(** The loop over the words, from a dictionary already built. *)
Lemma process_fold (c : string -> string) words :
  forall d w,
    dict_get w (fold_left (fun result word => dict_set word (c word) result) words d)
    = if set_in w words then Some (c w) else dict_get w d.
Proof.
  induction words as [| a words IH]; intros d w; cbn [fold_left]; [reflexivity |].
  rewrite IH. unfold set_in at 2. cbn [existsb]. fold (set_in w words).
  destruct (set_in w words); [now rewrite orb_true_r |]. rewrite orb_false_r.
  destruct (String.eqb_spec w a) as [-> | Hne].
  - apply dict_get_set_same.
  - apply dict_get_set_other. congruence.
Qed.

Lemma process_fold_keys (c : string -> string) words :
  forall d, NoDup (map fst d) ->
    NoDup (map fst (fold_left (fun result word => dict_set word (c word) result) words d)).
Proof.
  induction words as [| a words IH]; intros d H; cbn [fold_left]; [exact H |].
  apply IH. now apply dict_set_keys_nodup.
Qed.

Lemma process_fold_values (c : string -> string) words :
  forall d, Forall (fun kv => snd kv = c (fst kv)) d ->
    Forall (fun kv => snd kv = c (fst kv))
           (fold_left (fun result word => dict_set word (c word) result) words d).
Proof.
  induction words as [| a words IH]; intros d H; cbn [fold_left]; [exact H |].
  apply IH. now apply dict_set_values.
Qed.

Lemma classify_values alphabet delta initial_state final_states word :
  let v := classify alphabet delta initial_state final_states word in
  v = "ACEITA" \/ v = "REJEITA" \/ v = "INVALIDA".
Proof.
  unfold classify. destruct (run_symbols _ _ _ _) as [q |]; [| auto].
  destruct (set_in q final_states); auto.
Qed.

Lemma process_get automata words w :
  dict_get w (process automata words)
  = if set_in w words
    then Some (classify (a_alphabet automata) (a_delta automata)
                        (a_initial_state automata) (a_final_states automata) w)
    else None.
Proof.
  unfold process.
  apply (process_fold (classify (a_alphabet automata) (a_delta automata)
                                (a_initial_state automata) (a_final_states automata))
                      words [] w).
Qed.

(** X1: the dictionary returned by [process] has exactly the given words as
    keys, each once however often the word is given; the value of a word
    is its own classification, whatever the other words are, and it is one
    of ACEITA, REJEITA and INVALIDA. *)
Theorem process_result automata words :
  (forall w, dict_get w (process automata words)
             = if set_in w words
               then Some (classify (a_alphabet automata) (a_delta automata)
                                   (a_initial_state automata) (a_final_states automata) w)
               else None) /\
  NoDup (map fst (process automata words)) /\
  (forall w, In w (map fst (process automata words)) <-> In w words) /\
  (forall w v, In (w, v) (process automata words) ->
               v = "ACEITA" \/ v = "REJEITA" \/ v = "INVALIDA").
Proof.
  set (c := classify (a_alphabet automata) (a_delta automata)
                     (a_initial_state automata) (a_final_states automata)).
  assert (Hget : forall w, dict_get w (process automata words)
                           = if set_in w words then Some (c w) else None).
  { intros w. apply process_get. }
  split; [exact Hget |]. split; [| split].
  - unfold process. apply (process_fold_keys c words []). constructor.
  - intros w. specialize (Hget w).
    assert (Hkey : forall d, In w (map fst d) <-> dict_get w d <> None).
    { induction d as [| [k v] d IH]; cbn.
      - split; [intros [] | congruence].
      - destruct (String.eqb_spec k w) as [-> | Hne].
        + split; [discriminate | auto].
        + rewrite <- IH. split; [intros [H | H]; [contradiction | exact H] | auto]. }
    rewrite Hkey, Hget. destruct (set_in w words) eqn:E.
    + apply set_in_In in E. split; [auto | discriminate].
    + apply set_in_false in E. split; [congruence | contradiction].
  - intros w v Hin.
    pose proof (process_fold_values c words [] (Forall_nil _)) as Hall.
    rewrite Forall_forall in Hall. specialize (Hall (w, v) Hin). cbn in Hall. subst v.
    apply classify_values.
Qed.

Lemma run_symbols_invalid alphabet delta q symbols :
  run_symbols alphabet delta q symbols = None <->
  exists symbol, In symbol symbols /\ ~ In symbol alphabet.
Proof.
  revert q. induction symbols as [| a symbols IH]; intros q; cbn.
  - split; [discriminate | intros [s [[] _]]].
  - destruct (set_in a alphabet) eqn:E; cbn.
    + apply set_in_In in E. rewrite IH. split.
      * intros [s [Hs Hn]]. exists s. auto.
      * intros [s [[<- | Hs] Hn]]; [contradiction | exists s; auto].
    + apply set_in_false in E. split; [| reflexivity]. intros _. exists a. auto.
Qed.

(** X2: a word is classified INVALIDA exactly when one of its symbols is
    not in the alphabet; the rules, the states and the other words play no
    part in it. *)
Theorem process_invalid automata words w :
  In w words ->
  (dict_get w (process automata words) = Some "INVALIDA" <->
   exists symbol, In symbol (symbols_of w) /\ ~ In symbol (a_alphabet automata)).
Proof.
  intros Hin. rewrite process_get.
  apply set_in_In in Hin. rewrite Hin.
  rewrite <- (run_symbols_invalid (a_alphabet automata) (a_delta automata)
                                 (a_initial_state automata)).
  unfold classify. destruct (run_symbols _ _ _ _) as [q |].
  - split; [| discriminate]. destruct (set_in q (a_final_states automata)); discriminate.
  - split; reflexivity.
Qed.

Lemma process_invalid_witness :
  dict_get "ac" (process Samples.sample ["ab"; "ac"]) = Some "INVALIDA" <->
  exists symbol, In symbol (symbols_of "ac") /\ ~ In symbol (a_alphabet Samples.sample).
Proof.
  apply (process_invalid Samples.sample ["ab"; "ac"] "ac"). cbn. auto.
Defined.

End EvaluatorMore.

(** ** [process] on a complete deterministic automaton *)

Section EvaluatorTotal.
Import Evaluator Determinizer Total.

(** When some rule matches, the loop over the rules takes the first one. *)
Lemma follow_found delta q a :
  (exists r, In (q, a, r) delta) ->
  exists e, In e delta /\ edge0 e = q /\ edge1 e = a /\ follow delta q a = edge2 e.
Proof.
  induction delta as [| e delta IH]; intros [r Hr]; [destruct Hr |]. cbn [follow].
  destruct (String.eqb_spec (edge0 e) q) as [H0 | H0];
    destruct (String.eqb_spec (edge1 e) a) as [H1 | H1]; cbn [andb].
  - exists e. split; [now left | auto].
  - destruct Hr as [-> | Hr]; [now contradiction H1 |].
    destruct (IH (ex_intro _ r Hr)) as [e' [He' H]]. exists e'. split; [now right | exact H].
  - destruct Hr as [-> | Hr]; [now contradiction H0 |].
    destruct (IH (ex_intro _ r Hr)) as [e' [He' H]]. exists e'. split; [now right | exact H].
  - destruct Hr as [-> | Hr]; [now contradiction H0 |].
    destruct (IH (ex_intro _ r Hr)) as [e' [He' H]]. exists e'. split; [now right | exact H].
Qed.

Lemma follow_functional delta q a r :
  functional delta -> In (q, a, r) delta -> follow delta q a = r.
Proof.
  intros Hfun Hin.
  destruct (follow_found delta q a (ex_intro _ r Hin)) as [e [He [H0 [H1 ->]]]].
  apply (Hfun e (q, a, r) He Hin); assumption.
Qed.

(** Every run of the automaton is the one [process] follows. *)
Lemma run_is_followed alphabet delta q w q' :
  functional delta -> eps_free delta ->
  NFA.run delta q w q' ->
  forallb (fun symbol => set_in symbol alphabet) w = true ->
  run_symbols alphabet delta q w = Some q'.
Proof.
  intros Hfun Heps Hrun. induction Hrun as [q | q r w q' He _ _ | q a r w q' Ha He _ IH];
    intros Hw.
  - reflexivity.
  - exfalso. exact (Heps _ He eq_refl).
  - cbn in Hw |- *. apply andb_true_iff in Hw. destruct Hw as [Hin Hw]. rewrite Hin. cbn.
    rewrite (follow_functional delta q a r Hfun He). now apply IH.
Qed.

(** On a complete automaton [process] follows a run. *)
Lemma followed_is_run qs automata :
  complete qs automata -> eps_free (a_delta automata) ->
  forall w q, In q qs ->
    forallb (fun symbol => set_in symbol (a_alphabet automata)) w = true ->
    exists r, run_symbols (a_alphabet automata) (a_delta automata) q w = Some r /\
              NFA.run (a_delta automata) q w r.
Proof.
  intros (_ & Hclosed & Htotal) Heps. induction w as [| a w IH]; intros q Hq Hw.
  - exists q. split; [reflexivity | constructor].
  - cbn in Hw. apply andb_true_iff in Hw. destruct Hw as [Hin Hw].
    pose proof (proj1 (set_in_In _ _) Hin) as Ha.
    destruct (follow_found _ q a (Htotal q a Hq Ha)) as [e [He [H0 [H1 Hf]]]].
    destruct (IH (edge2 e) (Hclosed e He) Hw) as [r [Hr Hrun]].
    exists r. cbn [run_symbols]. rewrite Hin. cbn [negb]. rewrite Hf. split; [exact Hr |].
    apply NFA.run_read with (r := edge2 e); [| | exact Hrun].
    + rewrite <- H1. now apply Heps.
    + destruct e as [[e0 e1] e2]. cbn in H0, H1. subst. exact He.
Qed.

(** X3: on an automaton without epsilon rules that is deterministic and has
    a rule for every state and symbol, [process] classifies every word as
    the language of the automaton does: ACEITA when the run of the word
    ends in a final state, REJEITA when it does not, INVALIDA when the word
    is not over the alphabet. *)
Theorem process_total_deterministic qs automata word :
  complete qs automata ->
  functional (a_delta automata) ->
  eps_free (a_delta automata) ->
  NFA.classifies automata word
    (classify (a_alphabet automata) (a_delta automata) (a_initial_state automata)
              (a_final_states automata) word) /\
  process automata [word] =
  [(word, classify (a_alphabet automata) (a_delta automata) (a_initial_state automata)
                   (a_final_states automata) word)].
Proof.
  intros Hc Hfun Heps. split; [| reflexivity].
  unfold NFA.classifies, classify.
  destruct (forallb _ (symbols_of word)) eqn:Hw.
  - destruct (followed_is_run qs automata Hc Heps (symbols_of word)
                (a_initial_state automata) (proj1 Hc) Hw) as [r [Hr Hrun]].
    rewrite Hr. destruct (set_in r (a_final_states automata)) eqn:Hfin.
    + left. split; [| reflexivity]. exists r. split; [exact Hrun | now apply set_in_In].
    + right. split; [| reflexivity]. intros [q' [Hrun' Hq']].
      pose proof (run_is_followed _ _ _ _ _ Hfun Heps Hrun' Hw) as Hr'.
      rewrite Hr in Hr'. inversion Hr'; subst q'.
      apply set_in_false in Hfin. contradiction.
  - assert (Hnone : run_symbols (a_alphabet automata) (a_delta automata)
                                (a_initial_state automata) (symbols_of word) = None).
    { apply run_symbols_invalid.
      assert (Hex : existsb (fun symbol => negb (set_in symbol (a_alphabet automata)))
                            (symbols_of word) = true).
      { clear -Hw. induction (symbols_of word) as [| a l IH]; cbn in *; [discriminate |].
        destruct (set_in a (a_alphabet automata)); cbn in *; [now apply IH | reflexivity]. }
      apply existsb_exists in Hex. destruct Hex as [s [Hs Hn]]. exists s. split; [exact Hs |].
      apply set_in_false. now destruct (set_in s (a_alphabet automata)). }
    now rewrite Hnone.
Qed.

(** The sample automaton of the docstring is complete and deterministic. *)
Lemma process_total_deterministic_witness :
  NFA.classifies Samples.sample "ab" "ACEITA" /\
  process Samples.sample ["ab"] = [("ab", "ACEITA")].
Proof.
  apply (process_total_deterministic ["q0"; "q1"; "q2"; "q3"] Samples.sample "ab").
  - split; [cbn; auto | split].
    + intros e He. cbn in He.
      repeat (destruct He as [<- | He]; [cbn; auto |]). destruct He.
    + intros q a Hq Ha. cbn in Hq, Ha.
      destruct Hq as [<- | [<- | [<- | [<- | []]]]]; destruct Ha as [<- | [<- | []]];
        eexists; cbn; auto 10.
  - intros e1 e2 H1 H2. cbn in H1, H2.
    repeat (destruct H1 as [<- | H1];
            [repeat (destruct H2 as [<- | H2]; [cbn; congruence |]); destruct H2 |]).
    destruct H1.
  - intros e He. cbn in He.
    repeat (destruct He as [<- | He]; [discriminate |]). destruct He.
Defined.

End EvaluatorTotal.

(** ** [load_automata]: further properties *)

Section LoaderMore.
Import Loader Tokens.

Lemma edge_ok_true (p : parsed) edge :
  edge_ok (p_states p) (p_alphabet p) edge = Ok true ->
  edge_valid p edge /\ 3 <= length edge.
Proof.
  intros H.
  destruct edge as [| e0 [| e1 [| e2 more]]]; cbn in H; try discriminate.
  - destruct (set_in e0 (p_states p)); discriminate.
  - destruct (set_in e0 (p_states p)); [| discriminate].
    destruct (set_in e1 (p_alphabet p) || (e1 =? EPSILON)); discriminate.
  - split; [| cbn; lia].
    destruct (edge_ok_spec p (e0 :: e1 :: e2 :: more)) as [[Hv _] | [_ Hf]];
      [cbn; lia | exact Hv |].
    cbn in Hf. rewrite H in Hf. discriminate.
Qed.

Lemma check_delta_ok (p : parsed) delta :
  check_delta (p_states p) (p_alphabet p) delta = Ok tt ->
  forall edge, In edge delta -> edge_valid p edge /\ 3 <= length edge.
Proof.
  induction delta as [| e rest IH]; intros H edge Hin; [destruct Hin |].
  cbn [check_delta] in H.
  destruct (edge_ok (p_states p) (p_alphabet p) e) as [[|] | err] eqn:E;
    cbn [bind negb] in H; try discriminate.
  destruct Hin as [<- | Hin]; [now apply edge_ok_true | now apply IH].
Qed.

Lemma edge_ok_results states alphabet edge :
  (exists b, edge_ok states alphabet edge = Ok b) \/
  edge_ok states alphabet edge = Raise IndexError.
Proof.
  unfold edge_ok, item.
  destruct (nth_error edge 0) as [e0 |]; cbn [bind]; [| now right].
  destruct (set_in e0 states); [| left; now eexists].
  destruct (nth_error edge 1) as [e1 |]; cbn [bind]; [| now right].
  destruct (set_in e1 alphabet || (e1 =? EPSILON)); [| left; now eexists].
  destruct (nth_error edge 2) as [e2 |]; cbn [bind]; [left; now eexists | now right].
Qed.

Lemma check_delta_results states alphabet delta :
  check_delta states alphabet delta = Ok tt \/
  check_delta states alphabet delta = Raise (ValueError "invalid edge") \/
  check_delta states alphabet delta = Raise IndexError.
Proof.
  induction delta as [| e rest IH]; cbn [check_delta]; [now left |].
  destruct (edge_ok_results states alphabet e) as [[[|] ->] | ->]; cbn [bind negb]; auto.
Qed.

(** What a returned tuple says about the three checks. *)
Lemma load_automata_ok_inv lines t :
  load_automata lines = Ok t ->
  set_in (p_initial_state (parse lines)) (p_states (parse lines)) = true /\
  check_final_states (p_states (parse lines)) (p_final_states (parse lines)) = Ok tt /\
  check_delta (p_states (parse lines)) (p_alphabet (parse lines)) (p_delta (parse lines))
  = Ok tt /\
  t = (p_states (parse lines), p_alphabet (parse lines), p_delta (parse lines),
       p_initial_state (parse lines), p_final_states (parse lines)).
Proof.
  unfold load_automata, validate. intros H.
  destruct (set_in (p_initial_state (parse lines)) (p_states (parse lines)));
    cbn [negb] in H; [| discriminate].
  destruct (check_final_states _ _) as [[] |]; cbn [bind] in H; [| discriminate].
  destruct (check_delta _ _ _) as [[] |]; cbn [bind] in H; [| discriminate].
  inversion H. auto.
Qed.

(** X4: whatever the file, a tuple returned by [load_automata] is made of
    the parsed components and satisfies the invariants of the data model,
    and each of its rules has at least three tokens: no invalid automaton
    is ever returned. *)
Theorem load_automata_sound lines t :
  load_automata lines = Ok t ->
  t = (p_states (parse lines), p_alphabet (parse lines), p_delta (parse lines),
       p_initial_state (parse lines), p_final_states (parse lines)) /\
  invariants (parse lines) /\
  (forall edge, In edge (p_delta (parse lines)) -> 3 <= length edge).
Proof.
  intros H. destruct (load_automata_ok_inv lines t H) as (Hi & Hf & Hd & Ht).
  split; [exact Ht |].
  pose proof (check_delta_ok (parse lines) _ Hd) as Hedges.
  split; [| intros edge He; exact (proj2 (Hedges edge He))].
  split; [now apply set_in_In | split].
  - destruct (check_final_states_cases (p_states (parse lines)) (p_final_states (parse lines)))
      as [[Hall _] | [_ Hraise]]; [exact Hall |].
    rewrite Hf in Hraise. discriminate.
  - intros edge He. exact (proj1 (Hedges edge He)).
Qed.

Lemma load_automata_sound_witness :
  (["q0"], ["a"; "&"], [["q0"; "a"; "q0"]], "q0", ["q0"])
  = (p_states (parse Samples.marker_file), p_alphabet (parse Samples.marker_file),
     p_delta (parse Samples.marker_file), p_initial_state (parse Samples.marker_file),
     p_final_states (parse Samples.marker_file)) /\
  invariants (parse Samples.marker_file) /\
  (forall edge, In edge (p_delta (parse Samples.marker_file)) -> 3 <= length edge).
Proof.
  exact (load_automata_sound Samples.marker_file
           (["q0"], ["a"; "&"], [["q0"; "a"; "q0"]], "q0", ["q0"]) eq_refl).
Defined.

(** X5: the checks of [load_automata] are made in a fixed order.  The error
    is "invalid initial state" exactly when the initial state is not a
    declared state, whatever else is wrong in the file; it is "invalid
    final state" exactly when the initial state is declared and some final
    state is not; an error about a rule ("invalid edge" or an [IndexError])
    is raised only when the initial state and all the final states are
    declared. *)
Theorem load_automata_error_order lines :
  (load_automata lines = Raise (ValueError "invalid initial state") <->
   ~ In (p_initial_state (parse lines)) (p_states (parse lines))) /\
  (load_automata lines = Raise (ValueError "invalid final state") <->
   In (p_initial_state (parse lines)) (p_states (parse lines)) /\
   exists f, In f (p_final_states (parse lines)) /\ ~ In f (p_states (parse lines))) /\
  (load_automata lines = Raise (ValueError "invalid edge") \/
   load_automata lines = Raise IndexError ->
   In (p_initial_state (parse lines)) (p_states (parse lines)) /\
   forall f, In f (p_final_states (parse lines)) -> In f (p_states (parse lines))).
Proof.
  unfold load_automata, validate. set (p := parse lines).
  destruct (set_in (p_initial_state p) (p_states p)) eqn:Ei; cbn [negb].
  - apply set_in_In in Ei.
    destruct (check_final_states_cases (p_states p) (p_final_states p))
      as [[Hall ->] | [Hex ->]]; cbn [bind].
    + destruct (check_delta_results (p_states p) (p_alphabet p) (p_delta p))
        as [-> | [-> | ->]]; cbn [bind];
        (split; [split; [discriminate | contradiction] |]);
        (split; [split; [discriminate | intros [_ [f [Hf Hn]]]; exfalso; exact (Hn (Hall f Hf))] |]);
        auto.
    + split; [split; [discriminate | contradiction] |].
      split; [split; auto |]. intros [H | H]; discriminate H.
  - apply set_in_false in Ei.
    split; [split; auto |].
    split; [split; [discriminate | intros [H _]; contradiction] |].
    intros [H | H]; discriminate H.
Qed.

(** X6: a file with fewer than two lines, the empty file included, declares
    no state, and [load_automata] raises "invalid initial state". *)
Theorem load_automata_short_file lines :
  length lines < 2 ->
  load_automata lines = Raise (ValueError "invalid initial state").
Proof.
  intros H. destruct lines as [| l0 [| l1 rest]]; [reflexivity | | cbn in H; lia].
  unfold load_automata, validate, parse. cbn [readline p_initial_state p_states].
  reflexivity.
Qed.

Lemma load_automata_short_file_witness :
  load_automata [] = Raise (ValueError "invalid initial state").
Proof. apply (load_automata_short_file []). cbn. lia. Defined.

Lemma check_delta_app (p : parsed) good rest :
  (forall g, In g good -> edge_valid p g) ->
  check_delta (p_states p) (p_alphabet p) (good ++ rest)
  = check_delta (p_states p) (p_alphabet p) rest.
Proof.
  induction good as [| g good IH]; intros Hgood; [reflexivity |].
  cbn [app check_delta].
  assert (Hg : edge_valid p g) by (apply Hgood; now left).
  assert (H3 : 3 <= length g).
  { destruct Hg as (e0 & e1 & e2 & _ & _ & H2 & _).
    assert (Hlt : 2 < length g) by (apply nth_error_Some; congruence). lia. }
  destruct (edge_ok_spec p g H3) as [[_ ->] | [Hn _]]; [| contradiction].
  cbn [bind negb]. apply IH. intros g' Hg'. apply Hgood. now right.
Qed.

(** X7: a rule line with fewer than three tokens that comes after valid
    rules, in a file whose initial and final states are declared.  When
    every token present passes its check (an empty line, a lone declared
    state, a declared state with an admissible symbol) the test runs out of
    tokens and the error is an [IndexError]; when the first token is not a
    declared state, or the second is neither in the alphabet nor the
    marker, the error is "invalid edge". *)
Theorem load_automata_short_rule lines good edge rest :
  In (p_initial_state (parse lines)) (p_states (parse lines)) ->
  (forall f, In f (p_final_states (parse lines)) -> In f (p_states (parse lines))) ->
  p_delta (parse lines) = good ++ edge :: rest ->
  (forall g, In g good -> edge_valid (parse lines) g) ->
  (runs_out (parse lines) edge -> load_automata lines = Raise IndexError) /\
  (fails_early (parse lines) edge ->
   load_automata lines = Raise (ValueError "invalid edge")).
Proof.
  intros Hi Hf Hd Hgood. unfold load_automata, validate. set (p := parse lines) in *.
  apply set_in_In in Hi. rewrite Hi. cbn [negb].
  destruct (check_final_states_cases (p_states p) (p_final_states p))
    as [[_ ->] | [[f [Hin Hn]] _]]; [| exfalso; exact (Hn (Hf f Hin))].
  cbn [bind]. rewrite Hd, (check_delta_app p good _ Hgood). cbn [check_delta].
  split.
  - intros [-> | [[e0 [-> H0]] | [e0 [e1 (-> & H0 & H1)]]]]; [reflexivity | |].
    + unfold edge_ok, item. cbn [nth_error bind]. apply set_in_In in H0. now rewrite H0.
    + unfold edge_ok, item. cbn [nth_error bind]. apply set_in_In in H0. rewrite H0.
      assert (Hor : set_in e1 (p_alphabet p) || (e1 =? EPSILON) = true).
      { destruct H1 as [H1 | ->]; [apply set_in_In in H1; now rewrite H1 |].
        apply orb_true_r. }
      now rewrite Hor.
  - intros [[e0 [Hshape H0]] | [e0 [e1 (-> & H0 & H1 & Hne)]]].
    + apply set_in_false in H0.
      destruct Hshape as [-> | [e1 ->]]; unfold edge_ok, item; cbn [nth_error bind];
        now rewrite H0.
    + unfold edge_ok, item. cbn [nth_error bind]. apply set_in_In in H0. rewrite H0.
      apply set_in_false in H1. rewrite H1.
      destruct (String.eqb_spec e1 EPSILON); [contradiction | reflexivity].
Qed.

(** The sample file followed by an empty line. *)
Lemma load_automata_short_rule_witness :
  load_automata (Samples.sample_file ++ ["
"]) = Raise IndexError.
Proof.
  refine (proj1 (load_automata_short_rule (Samples.sample_file ++ ["
"])
    [["q0"; "a"; "q1"]; ["q0"; "b"; "q2"]; ["q1"; "a"; "q0"]; ["q1"; "b"; "q3"];
     ["q2"; "a"; "q3"]; ["q2"; "b"; "q0"]; ["q3"; "a"; "q1"]; ["q3"; "b"; "q2"]]
    [] [] _ _ eq_refl _) _).
  - vm_compute. auto.
  - vm_compute. intros f [<- | [<- | []]]; auto 10.
  - intros g Hg.
    repeat (destruct Hg as [<- | Hg];
            [eexists _, _, _; repeat split; try reflexivity; vm_compute; auto 10 |]).
    destruct Hg.
  - now left.
Defined.

End LoaderMore.

(** ** The names read by [load_automata] *)

Section LoaderTokens.
Import Loader Tokens.

Lemma blank_free_snoc t c :
  blank_free (t ++ String c "")%string = blank_free t && negb (isspace c).
Proof.
  induction t as [| d t IH]; cbn.
  - now rewrite andb_true_r.
  - rewrite IH. now rewrite andb_assoc.
Qed.

Lemma snoc_not_empty t c : (t ++ String c "")%string <> "".
Proof. destruct t; discriminate. Qed.

Lemma split_from_clean s :
  forall tok, (forall t, tok = Some t -> clean t) -> Forall clean (split_from tok s).
Proof.
  induction s as [| c s IH]; intros tok Htok; cbn [split_from].
  - destruct tok as [t |]; [| constructor]. constructor; [now apply Htok | constructor].
  - destruct (isspace c) eqn:Ec.
    + destruct tok as [t |].
      * constructor; [now apply Htok |]. apply IH. discriminate.
      * apply IH. discriminate.
    + apply IH. intros t Ht. inversion Ht; subst t; clear Ht. split.
      * apply snoc_not_empty.
      * rewrite blank_free_snoc, Ec. destruct tok as [t |]; [| reflexivity].
        now rewrite (proj2 (Htok t eq_refl)).
Qed.

Lemma split_clean s : Forall clean (split s).
Proof. apply split_from_clean. discriminate. Qed.

Lemma parse_clean lines :
  Forall clean (p_alphabet (parse lines)) /\
  Forall clean (p_states (parse lines)) /\
  Forall clean (p_final_states (parse lines)) /\
  Forall (Forall clean) (p_delta (parse lines)).
Proof.
  assert (Hmap : forall rest, Forall (Forall clean) (map (fun line => split (strip line)) rest)).
  { intros rest. apply Forall_forall. intros e He. apply in_map_iff in He.
    destruct He as [line [<- _]]. apply split_clean. }
  destruct lines as [| l0 [| l1 [| l2 [| l3 rest]]]]; cbn;
    repeat split; try apply split_clean; try constructor; apply Hmap.
Qed.

(** X8: every name in a tuple returned by [load_automata] (the symbols of
    the alphabet, the states, the final states, the initial state and the
    tokens of the rules) is a non-empty string without whitespace.  In
    particular a file whose initial-state line is empty or holds two names
    is never accepted. *)
Theorem load_automata_names lines states alphabet delta initial_state final_states :
  load_automata lines = Ok (states, alphabet, delta, initial_state, final_states) ->
  Forall clean states /\ Forall clean alphabet /\ Forall clean final_states /\
  clean initial_state /\ Forall (Forall clean) delta.
Proof.
  intros H. destruct (load_automata_ok_inv lines _ H) as (Hi & _ & _ & Ht).
  inversion Ht; subst; clear Ht.
  destruct (parse_clean lines) as (Ha & Hs & Hf & Hd).
  repeat split; try assumption.
  - apply set_in_In in Hi. rewrite Forall_forall in Hs. apply (Hs _ Hi).
  - apply set_in_In in Hi. rewrite Forall_forall in Hs. apply (Hs _ Hi).
Qed.

Lemma load_automata_names_witness :
  Forall clean ["q0"] /\ Forall clean ["a"; "&"] /\ Forall clean ["q0"] /\
  clean "q0" /\ Forall (Forall clean) [["q0"; "a"; "q0"]].
Proof.
  exact (load_automata_names Samples.marker_file
           ["q0"] ["a"; "&"] [["q0"; "a"; "q0"]] "q0" ["q0"] eq_refl).
Defined.

End LoaderTokens.

(** ** [handle_closure]: how closures compose *)

Section ClosureMore.
Import Closure.

Lemma eps_reach_trans delta p q r :
  eps_reach delta p q -> eps_reach delta q r -> eps_reach delta p r.
Proof.
  intros Hpq Hqr. induction Hqr as [| r s _ IH He]; [exact Hpq |].
  now apply eps_step with (q := r).
Qed.

Lemma eps_reach_more delta delta' p q :
  incl delta delta' -> eps_reach delta p q -> eps_reach delta' p q.
Proof.
  intros Hincl H. induction H as [| q r _ IH He]; [constructor |].
  apply eps_step with (q := q); [exact IH | now apply Hincl].
Qed.

Lemma eps_reach_last delta p q :
  eps_reach delta p q -> q = p \/ exists r, In (r, EPSILON, q) delta.
Proof. intros H. destruct H as [| r q _ He]; [now left | right; now exists r]. Qed.

Lemma handle_closure_reach state delta q :
  In q (handle_closure state delta) <-> eps_reach delta state q.
Proof.
  pose proof (handle_closure_inv delta state) as Hinv. split.
  - apply (ci_sound _ _ _ _ Hinv).
  - apply (closure_inv_complete delta state _ Hinv).
Qed.

(** X9: the closure of a member of a closure lies inside that closure. *)
Theorem handle_closure_closed state delta q :
  In q (handle_closure state delta) ->
  incl (handle_closure q delta) (handle_closure state delta).
Proof.
  intros Hq r Hr.
  apply handle_closure_reach. apply handle_closure_reach in Hq, Hr.
  now apply eps_reach_trans with (q := q).
Qed.

Lemma handle_closure_closed_witness :
  incl (handle_closure "q1" [("q0", "&", "q1"); ("q1", "&", "q2")])
       (handle_closure "q0" [("q0", "&", "q1"); ("q1", "&", "q2")]).
Proof.
  apply (handle_closure_closed "q0" [("q0", "&", "q1"); ("q1", "&", "q2")] "q1").
  vm_compute. auto.
Defined.

(** X10: a closure holds, besides the state it is taken of, only
    destinations of rules labelled with the epsilon marker, and it can only
    grow when rules are added. *)
Theorem handle_closure_bounds state delta :
  In state (handle_closure state delta) /\
  (forall q, In q (handle_closure state delta) ->
             q = state \/ exists r, In (r, EPSILON, q) delta) /\
  (forall delta', incl delta delta' ->
                  incl (handle_closure state delta) (handle_closure state delta')).
Proof.
  split; [| split].
  - apply handle_closure_reach. constructor.
  - intros q Hq. apply handle_closure_reach in Hq. now apply eps_reach_last.
  - intros delta' Hincl q Hq. apply handle_closure_reach.
    apply handle_closure_reach in Hq. now apply eps_reach_more with (delta := delta).
Qed.

End ClosureMore.

(** ** [convert_to_dfa]: the successor sets *)

Section SuccessorSets.
Import Closure Determinizer.

Lemma In_set_add x y s : In x (set_add y s) <-> In x s \/ x = y.
Proof.
  unfold set_add. destruct (set_in y s) eqn:E.
  - apply set_in_In in E. split; [tauto | intros [H | ->]; assumption].
  - rewrite in_app_iff. cbn. split; intros [H | H]; auto.
    destruct H as [H | []]. auto.
Qed.

Lemma In_set_union x s t : In x (set_union s t) <-> In x s \/ In x t.
Proof.
  unfold set_union. revert s. induction t as [| y t IH]; intros s; cbn [fold_left].
  - split; [auto | intros [H | []]; exact H].
  - rewrite IH, In_set_add. cbn. split; intros H; intuition (subst; auto).
Qed.

Lemma set_subset_incl s t : set_subset s t = true <-> incl s t.
Proof.
  unfold set_subset. rewrite forallb_forall. split.
  - intros H x Hx. apply set_in_In. now apply H.
  - intros H x Hx. apply set_in_In. now apply H.
Qed.

Lemma set_eqb_incl s t : set_eqb s t = true <-> incl s t /\ incl t s.
Proof. unfold set_eqb. now rewrite andb_true_iff, !set_subset_incl. Qed.

(** The loop over the rules, for one state of [current], over any part [l]
    of the rules. *)
Lemma reach_from_part delta symbol state (l : list edge) :
  forall acc q,
    In q (fold_left
            (fun new_state e =>
               if (edge0 e =? state) && (edge1 e =? symbol)
               then set_union new_state (handle_closure (edge2 e) delta)
               else new_state) l acc)
    <-> In q acc \/ exists r, In (state, symbol, r) l /\ eps_reach delta r q.
Proof.
  induction l as [| e l IH]; intros acc q; cbn [fold_left].
  - split; [auto | intros [H | [r [[] _]]]; exact H].
  - rewrite IH. destruct e as [[e0 e1] e2]. cbn [edge0 edge1 edge2 fst snd].
    destruct (String.eqb_spec e0 state) as [-> | H0];
      destruct (String.eqb_spec e1 symbol) as [-> | H1]; cbn [andb].
    + rewrite In_set_union, handle_closure_reach. split.
      * intros [[H | H] | [r [Hr Hq]]]; auto.
        -- right. exists e2. split; [now left | exact H].
        -- right. exists r. split; [now right | exact Hq].
      * intros [H | [r [[Hr | Hr] Hq]]]; auto.
        -- inversion Hr; subst. auto.
        -- right. now exists r.
    + split; (intros [H | [r [Hr Hq]]]; [now left | right; exists r; split; [| exact Hq]]).
      * now right.
      * destruct Hr as [Hr | Hr]; [inversion Hr; subst; contradiction | exact Hr].
    + split; (intros [H | [r [Hr Hq]]]; [now left | right; exists r; split; [| exact Hq]]).
      * now right.
      * destruct Hr as [Hr | Hr]; [inversion Hr; subst; contradiction | exact Hr].
    + split; (intros [H | [r [Hr Hq]]]; [now left | right; exists r; split; [| exact Hq]]).
      * now right.
      * destruct Hr as [Hr | Hr]; [inversion Hr; subst; contradiction | exact Hr].
Qed.

Lemma reach_from_spec delta symbol state acc q :
  In q (reach_from delta symbol state acc)
  <-> In q acc \/ exists r, In (state, symbol, r) delta /\ eps_reach delta r q.
Proof. apply reach_from_part. Qed.

Lemma successor_part delta symbol (l : list string) :
  forall acc q,
    In q (fold_left (fun new_state state => reach_from delta symbol state new_state) l acc)
    <-> In q acc \/
        exists p r, In p l /\ In (p, symbol, r) delta /\ eps_reach delta r q.
Proof.
  induction l as [| p l IH]; intros acc q; cbn [fold_left].
  - split; [auto | intros [H | [p [r [[] _]]]]; exact H].
  - rewrite IH, reach_from_spec. split.
    + intros [[H | [r [Hr Hq]]] | [p' [r (Hp & Hr & Hq)]]]; auto.
      * right. exists p, r. split; [now left | auto].
      * right. exists p', r. split; [now right | auto].
    + intros [H | [p' [r ([<- | Hp] & Hr & Hq)]]]; auto.
      * left. right. now exists r.
      * right. now exists p', r.
Qed.

(** X11: the set computed for a set [current] and a symbol in
    [convert_to_dfa] holds exactly the states that are reached from a member
    of [current] by one rule labelled with the symbol followed by zero or
    more epsilon rules. *)
Theorem successor_spec delta symbol current q :
  In q (successor delta symbol current)
  <-> exists p r, In p current /\ In (p, symbol, r) delta /\ eps_reach delta r q.
Proof.
  unfold successor. rewrite successor_part. split; [| auto].
  intros [[] | H]. exact H.
Qed.

End SuccessorSets.

(** ** [convert_to_dfa]: termination *)

Section SubsetTermination.
Import Closure Determinizer Subsets.

Lemma filter_in_powerset (f : string -> bool) u : In (filter f u) (powerset u).
Proof.
  induction u as [| x u IH]; cbn; [now left |].
  apply in_or_app. destruct (f x); [left | now right].
  apply in_map_iff. now exists (filter f u).
Qed.

Lemma powerset_length u : length (powerset u) = 2 ^ length u.
Proof.
  induction u as [| x u IH]; cbn; [reflexivity |].
  rewrite length_app, length_map, IH. lia.
Qed.

Lemma filter_count_le {A} (f f' : A -> bool) (l : list A) :
  (forall x, f' x = true -> f x = true) ->
  length (filter f' l) <= length (filter f l).
Proof.
  intros Himp. induction l as [| y l IH]; cbn; [lia |].
  destruct (f' y) eqn:E'; [rewrite (Himp y E'); cbn; lia |].
  destruct (f y); cbn; lia.
Qed.

Lemma filter_count_lt {A} (f f' : A -> bool) (l : list A) x :
  (forall x, f' x = true -> f x = true) ->
  In x l -> f x = true -> f' x = false ->
  S (length (filter f' l)) <= length (filter f l).
Proof.
  intros Himp Hin Hf Hf'. induction l as [| y l IH]; [destruct Hin |]. cbn.
  destruct Hin as [-> | Hin].
  - rewrite Hf, Hf'. cbn. pose proof (filter_count_le f f' l Himp). lia.
  - specialize (IH Hin). destruct (f' y) eqn:E'; [rewrite (Himp y E'); cbn; lia |].
    destruct (f y); cbn; lia.
Qed.

Lemma watched_in_spec p watched :
  watched_in p watched = true <-> exists x, In x watched /\ set_eqb p x = true.
Proof. unfold watched_in. apply existsb_exists. Qed.

Lemma watched_in_app p watched n :
  watched_in p (watched ++ [n]) = watched_in p watched || set_eqb p n.
Proof. unfold watched_in. rewrite existsb_app. cbn. now rewrite orb_false_r. Qed.

Lemma watched_in_equal p p' watched :
  set_eqb p p' = true -> watched_in p' watched = false -> watched_in p watched = false.
Proof.
  intros Heq Hno. destruct (watched_in p watched) eqn:E; [| reflexivity].
  apply watched_in_spec in E. destruct E as [x [Hx Hpx]].
  assert (Hyes : watched_in p' watched = true).
  { apply watched_in_spec. exists x. split; [exact Hx |].
    apply set_eqb_incl in Heq, Hpx. apply set_eqb_incl.
    destruct Heq, Hpx. split; eapply incl_tran; eassumption. }
  congruence.
Qed.

(** A set of destinations that is not watched uses up one of the subsets
    still to come. *)
Lemma unwatched_lt u watched n :
  incl n u -> watched_in n watched = false ->
  S (unwatched u (watched ++ [n])) <= unwatched u watched.
Proof.
  intros Hincl Hno. unfold unwatched.
  assert (Hrep : set_eqb (filter (fun y => set_in y n) u) n = true).
  { apply set_eqb_incl. split.
    - intros y Hy. apply filter_In in Hy. now apply set_in_In.
    - intros y Hy. apply filter_In. split; [now apply Hincl | now apply set_in_In]. }
  apply filter_count_lt with (x := filter (fun y => set_in y n) u).
  - intros p. rewrite watched_in_app. now destruct (watched_in p watched).
  - apply filter_in_powerset.
  - now rewrite (watched_in_equal _ n watched Hrep Hno).
  - now rewrite watched_in_app, Hrep, orb_true_r.
Qed.

Lemma successor_in_universe delta symbol current :
  incl (successor delta symbol current) (universe delta).
Proof.
  intros q Hq. unfold successor in Hq. apply successor_part in Hq.
  destruct Hq as [[] | [p [r (_ & Hr & Hq)]]].
  unfold universe. apply in_map_iff.
  destruct (eps_reach_last _ _ _ Hq) as [-> | [r' Hr']].
  - now exists (p, symbol, r).
  - now exists (r', EPSILON, q).
Qed.

Lemma symbol_step_measure delta current new_delta watched queue symbol :
  let '(_, watched', queue') :=
    symbol_step delta current (new_delta, watched, queue) symbol in
  length queue' + unwatched (universe delta) watched'
  <= length queue + unwatched (universe delta) watched.
Proof.
  unfold symbol_step.
  pose proof (successor_in_universe delta symbol current) as Hincl.
  destruct (successor delta symbol current) as [| x n] eqn:E; [lia |].
  destruct (watched_in (x :: n) watched) eqn:Ew; cbn [negb]; [lia |].
  pose proof (unwatched_lt _ watched (x :: n) Hincl Ew). cbn [length]. lia.
Qed.

Lemma symbol_fold_measure delta current symbols :
  forall new_delta watched queue,
    let '(_, watched', queue') :=
      fold_left (symbol_step delta current) symbols (new_delta, watched, queue) in
    length queue' + unwatched (universe delta) watched'
    <= length queue + unwatched (universe delta) watched.
Proof.
  induction symbols as [| symbol symbols IH]; intros new_delta watched queue;
    cbn [fold_left]; [lia |].
  generalize (symbol_step_measure delta current new_delta watched queue symbol).
  destruct (symbol_step delta current (new_delta, watched, queue) symbol) as [[nd w] q].
  intros H1. generalize (IH nd w q).
  destruct (fold_left (symbol_step delta current) symbols (nd, w, q)) as [[nd' w'] q'].
  lia.
Qed.

Lemma subset_while_enough fuel alphabet delta :
  forall queue watched new_states new_delta,
    length queue + unwatched (universe delta) watched <= fuel ->
    exists r, subset_while fuel alphabet delta queue watched new_states new_delta = Some r.
Proof.
  induction fuel as [| fuel IH]; intros queue watched new_states new_delta H.
  - destruct queue; [now eexists | cbn in H; lia].
  - destruct queue as [| current queue]; [now eexists |]. cbn [subset_while].
    generalize (symbol_fold_measure delta current alphabet new_delta watched queue).
    destruct (fold_left (symbol_step delta current) alphabet (new_delta, watched, queue))
      as [[nd w] q].
    intros Hm. apply IH. cbn [length] in H. lia.
Qed.

(** X12: [convert_to_dfa] terminates on every automaton: the [while] loop
    over the queue ends within one iteration more than there are sets of
    rule destinations, [1 + 2 ^ len(delta)], because a set is queued only
    when no equal set is in [watched]; with more iterations allowed the
    result is the same. *)
Theorem convert_to_dfa_terminates automata :
  exists dfa,
    convert_to_dfa (S (2 ^ length (a_delta automata))) automata = Some dfa /\
    forall fuel, S (2 ^ length (a_delta automata)) <= fuel ->
                 convert_to_dfa fuel automata = Some dfa.
Proof.
  assert (H : exists dfa,
             convert_to_dfa (S (2 ^ length (a_delta automata))) automata = Some dfa).
  { unfold convert_to_dfa.
    destruct (subset_while_enough (S (2 ^ length (a_delta automata)))
                (a_alphabet automata) (a_delta automata)
                [handle_closure (a_initial_state automata) (a_delta automata)] [] [] [])
      as [[ns nd] ->]; [| now eexists].
    unfold unwatched, universe. cbn [watched_in existsb negb length].
    rewrite <- (length_map edge2 (a_delta automata)), <- powerset_length.
    pose proof (filter_length_le (fun _ : list string => true)
                                 (powerset (map edge2 (a_delta automata)))).
    cbn [Nat.add]. lia. }
  destruct H as [dfa H]. exists dfa. split; [exact H |].
  now apply convert_to_dfa_from.
Qed.

End SubsetTermination.

(** ** [convert_to_dfa]: what the subset construction builds *)

Section SubsetConstruction.
Import Closure Determinizer Subsets.

Lemma emitted_app delta current l1 l2 :
  emitted delta current (l1 ++ l2) = emitted delta current l1 ++ emitted delta current l2.
Proof. unfold emitted. apply flat_map_app. Qed.

Lemma In_emitted delta current symbols c s n :
  In (c, s, n) (emitted delta current symbols) <->
  c = current /\ In s symbols /\ n = successor delta s c /\ n <> [].
Proof.
  unfold emitted. rewrite in_flat_map. split.
  - intros [symbol [Hs Hin]].
    destruct (successor delta symbol current) as [| x n'] eqn:E; [destruct Hin |].
    destruct Hin as [Heq | []]. inversion Heq; subst. rewrite E. repeat split; auto.
    discriminate.
  - intros (-> & Hs & -> & Hne). exists s. split; [exact Hs |].
    destruct (successor delta s current) as [| x n'] eqn:E; [now contradiction Hne |].
    now left.
Qed.

Lemma watched_in_refl n watched : In n watched -> watched_in n watched = true.
Proof.
  intros H. apply watched_in_spec. exists n. split; [exact H |].
  apply set_eqb_incl. split; apply incl_refl.
Qed.

Lemma watched_in_more n watched watched' :
  incl watched watched' -> watched_in n watched = true -> watched_in n watched' = true.
Proof.
  intros Hincl H. apply watched_in_spec in H. destruct H as [x [Hx Heq]].
  apply watched_in_spec. exists x. split; [now apply Hincl | exact Heq].
Qed.

(** One pass of [for symbol in alphabet] for the set [current]. *)
Lemma symbol_fold_spec delta current symbols :
  forall nd w q nd' w' q',
    fold_left (symbol_step delta current) symbols (nd, w, q) = (nd', w', q') ->
    nd' = nd ++ emitted delta current symbols /\
    incl w w' /\ incl q q' /\
    (forall x, In x w' -> In x w \/ In x q') /\
    (forall x, In x q' ->
               In x q \/ exists s, In s symbols /\ x = successor delta s current /\ x <> []) /\
    (forall s, In s symbols -> successor delta s current <> [] ->
               watched_in (successor delta s current) w' = true).
Proof.
  induction symbols as [| symbol symbols IH]; intros nd w q nd' w' q' H; cbn [fold_left] in H.
  - inversion H; subst. cbn. rewrite app_nil_r.
    repeat split; auto using incl_refl.
  - change (symbol :: symbols) with ([symbol] ++ symbols). rewrite emitted_app.
    unfold symbol_step at 2 in H. unfold emitted at 1. cbn [flat_map].
    destruct (successor delta symbol current) as [| x n] eqn:E.
    + destruct (IH _ _ _ _ _ _ H) as (Hnd & Hw & Hq & Hwq & Hqo & Hsw).
      cbn [app]. repeat split; auto.
      * intros y Hy. destruct (Hqo y Hy) as [Hy' | [s (Hs & Hx & Hne)]]; [now left |].
        right. exists s. split; [now right | auto].
      * intros s [<- | Hs] Hne; [now contradiction Hne | now apply Hsw].
    + destruct (watched_in (x :: n) w) eqn:Ew; cbn [negb] in H.
      * destruct (IH _ _ _ _ _ _ H) as (Hnd & Hw & Hq & Hwq & Hqo & Hsw).
        rewrite app_nil_r. cbn [app]. rewrite <- app_assoc in Hnd. cbn [app] in Hnd.
        repeat split; auto.
        -- intros y Hy. destruct (Hqo y Hy) as [Hy' | [s (Hs & Hx & Hne)]]; [now left |].
           right. exists s. split; [now right | auto].
        -- intros s [<- | Hs] Hne; [| now apply Hsw].
           rewrite E. now apply watched_in_more with (watched := w).
      * destruct (IH _ _ _ _ _ _ H) as (Hnd & Hw & Hq & Hwq & Hqo & Hsw).
        rewrite app_nil_r. cbn [app]. rewrite <- app_assoc in Hnd. cbn [app] in Hnd.
        repeat split; auto.
        -- intros y Hy. apply Hw, in_or_app. now left.
        -- intros y Hy. apply Hq. now right.
        -- intros y Hy. destruct (Hwq y Hy) as [Hy' | Hy']; [| now right].
           apply in_app_or in Hy'. destruct Hy' as [Hy' | [<- | []]]; [now left |].
           right. apply Hq. now left.
        -- intros y Hy. destruct (Hqo y Hy) as [[<- | Hy'] | [s (Hs & Hx & Hne)]].
           ++ right. exists symbol. split; [now left |]. rewrite E. split; [reflexivity | discriminate].
           ++ now left.
           ++ right. exists s. split; [now right | auto].
        -- intros s [<- | Hs] Hne; [| now apply Hsw].
           rewrite E. apply watched_in_refl, Hw, in_or_app. right. now left.
Qed.

Lemma subset_inv_init alphabet delta c0 : subset_inv alphabet delta c0 [c0] [] [] [].
Proof.
  constructor.
  - intros c s n. split; [intros [] | intros [[] _]].
  - intros c s n [].
  - intros x [].
  - intros x [[<- | []] | []]. now left.
  - left. auto.
Qed.

Lemma subset_inv_step alphabet delta c0 current queue watched ns nd nd' w' q' :
  subset_inv alphabet delta c0 (current :: queue) watched ns nd ->
  fold_left (symbol_step delta current) alphabet (nd, watched, queue) = (nd', w', q') ->
  subset_inv alphabet delta c0 q' w' (ns ++ [current]) nd'.
Proof.
  intros [Ir Iw Iq Io If] H.
  destruct (symbol_fold_spec _ _ _ _ _ _ _ _ _ H) as (-> & Hw & Hq & Hwq & Hqo & Hsw).
  constructor.
  - intros c s n. rewrite !in_app_iff, Ir, In_emitted. cbn [In]. split.
    + intros [(Hc & Hs & Hn & Hne) | (-> & Hs & Hn & Hne)]; auto 10.
    + intros ([Hc | [<- | []]] & Hs & Hn & Hne); auto 10.
  - intros c s n Hin. apply in_app_or in Hin. destruct Hin as [Hin | Hin].
    + apply watched_in_more with (watched := watched); [exact Hw | now apply (Iw c s n)].
    + apply In_emitted in Hin. destruct Hin as (-> & Hs & -> & Hne). now apply Hsw.
  - intros x Hx. rewrite in_app_iff. cbn [In].
    destruct (Hwq x Hx) as [Hx' | Hx']; [| now left].
    destruct (Iq x Hx') as [[<- | Hx''] | Hx'']; auto.
  - intros x Hx. rewrite in_app_iff in Hx. cbn [In] in Hx.
    assert (Hold : x = c0 \/ (exists c s, In (c, s, x) nd) ->
                   x = c0 \/ exists c s, In (c, s, x) (nd ++ emitted delta current alphabet)).
    { intros [-> | [c [s Hin]]]; [now left |]. right. exists c, s. apply in_or_app. now left. }
    destruct Hx as [Hx | [Hx | [<- | []]]].
    + destruct (Hqo x Hx) as [Hx' | [s (Hs & -> & Hne)]].
      * apply Hold, Io. left. now right.
      * right. exists current, s. apply in_or_app. right. now apply In_emitted.
    + apply Hold, Io. now right.
    + apply Hold, Io. left. now left.
  - right. destruct If as [[-> Heq] | [rest ->]].
    + inversion Heq; subst. now exists [].
    + now exists (rest ++ [current]).
Qed.

Lemma subset_while_inv fuel alphabet delta c0 :
  forall queue watched ns nd ns' nd',
    subset_inv alphabet delta c0 queue watched ns nd ->
    subset_while fuel alphabet delta queue watched ns nd = Some (ns', nd') ->
    exists watched', subset_inv alphabet delta c0 [] watched' ns' nd'.
Proof.
  induction fuel as [| fuel IH]; intros queue watched ns nd ns' nd' Hinv H.
  - destruct queue; [| discriminate]. inversion H; subst. now exists watched.
  - destruct queue as [| current queue].
    + inversion H; subst. now exists watched.
    + cbn [subset_while] in H.
      destruct (fold_left (symbol_step delta current) alphabet (nd, watched, queue))
        as [[nd1 w1] q1] eqn:E.
      apply (IH _ _ _ _ _ _ (subset_inv_step _ _ _ _ _ _ _ _ _ _ _ Hinv E) H).
Qed.

(** X13: what the loop of [convert_to_dfa] has built when it ends, [c0]
    being the closure of the initial state.  The set processed first is
    [c0]; the rules emitted are exactly one rule for every processed set
    and every symbol of the alphabet with a non-empty successor set, going
    to that successor set; the destination of every rule is equal, as a
    set, to a processed set; and every processed set other than [c0] is the
    destination of a rule. *)
Theorem subset_construction fuel alphabet delta c0 new_states new_delta :
  subset_while fuel alphabet delta [c0] [] [] [] = Some (new_states, new_delta) ->
  (exists rest, new_states = c0 :: rest) /\
  (forall c s n, In (c, s, n) new_delta <->
                 In c new_states /\ In s alphabet /\ n = successor delta s c /\ n <> []) /\
  (forall c s n, In (c, s, n) new_delta ->
                 exists c', In c' new_states /\ set_eqb n c' = true) /\
  (forall c, In c new_states -> c = c0 \/ exists c' s, In (c', s, c) new_delta).
Proof.
  intros H.
  destruct (subset_while_inv _ _ _ _ _ _ _ _ _ _ (subset_inv_init alphabet delta c0) H)
    as [w [Ir Iw Iq Io If]].
  split; [| split; [exact Ir | split]].
  - destruct If as [[_ Hq] | Hrest]; [discriminate Hq | exact Hrest].
  - intros c s n Hin. apply Iw, watched_in_spec in Hin. destruct Hin as [x [Hx Heq]].
    exists x. split; [| exact Heq]. destruct (Iq x Hx) as [[] | Hns]. exact Hns.
  - intros c Hc. apply Io. now right.
Qed.

Lemma subset_construction_witness :
  (exists rest, [["s"]; ["aaa"]; ["s"]; ["a"; "aa"]] = ["s"] :: rest) /\
  (forall c s n,
      In (c, s, n)
         [(["s"], "x", ["a"; "aa"]); (["s"], "y", ["aaa"]); (["aaa"], "x", ["s"]);
          (["aaa"], "y", ["aaa"]); (["s"], "x", ["a"; "aa"]); (["s"], "y", ["aaa"]);
          (["a"; "aa"], "x", ["a"; "aa"]); (["a"; "aa"], "y", ["a"; "aa"])] <->
      In c [["s"]; ["aaa"]; ["s"]; ["a"; "aa"]] /\ In s (a_alphabet Samples.names) /\
      n = successor (a_delta Samples.names) s c /\ n <> []) /\
  (forall c s n,
      In (c, s, n)
         [(["s"], "x", ["a"; "aa"]); (["s"], "y", ["aaa"]); (["aaa"], "x", ["s"]);
          (["aaa"], "y", ["aaa"]); (["s"], "x", ["a"; "aa"]); (["s"], "y", ["aaa"]);
          (["a"; "aa"], "x", ["a"; "aa"]); (["a"; "aa"], "y", ["a"; "aa"])] ->
      exists c', In c' [["s"]; ["aaa"]; ["s"]; ["a"; "aa"]] /\ set_eqb n c' = true) /\
  (forall c, In c [["s"]; ["aaa"]; ["s"]; ["a"; "aa"]] ->
             c = ["s"] \/
             exists c' s,
               In (c', s, c)
                  [(["s"], "x", ["a"; "aa"]); (["s"], "y", ["aaa"]); (["aaa"], "x", ["s"]);
                   (["aaa"], "y", ["aaa"]); (["s"], "x", ["a"; "aa"]); (["s"], "y", ["aaa"]);
                   (["a"; "aa"], "x", ["a"; "aa"]); (["a"; "aa"], "y", ["a"; "aa"])]).
Proof.
  exact (subset_construction 4 (a_alphabet Samples.names) (a_delta Samples.names) ["s"]
           _ _ eq_refl).
Defined.

End SubsetConstruction.

(** ** [convert_to_dfa]: the automaton returned *)

Section DeterminizerOutput.
Import Closure Determinizer Subsets.

Lemma convert_to_dfa_inv fuel automata dfa :
  convert_to_dfa fuel automata = Some dfa ->
  exists new_states new_delta,
    subset_while fuel (a_alphabet automata) (a_delta automata)
                 [handle_closure (a_initial_state automata) (a_delta automata)] [] [] []
    = Some (new_states, new_delta) /\
    dfa = mk_automata (format_states new_states) (a_alphabet automata)
            (format_delta new_delta)
            (select_initial_state (a_initial_state automata) new_states)
            (format_final_states (select_final_states (a_final_states automata) new_states)).
Proof.
  unfold convert_to_dfa. intros H.
  destruct (subset_while fuel _ _ _ _ _ _) as [[ns nd] |]; [| discriminate].
  inversion H. now exists ns, nd.
Qed.

(** X14: the automaton returned by [convert_to_dfa] keeps the alphabet; its
    initial state is the label of the closure of the original initial
    state; each of its rules is labelled with a symbol of the alphabet and
    goes from the label of a set of states to the label of the non-empty
    successor set of that set; each of its final states is the label of a
    set that holds an original final state; and when the closure of the
    original initial state holds a final state, the new initial state is
    final. *)
Theorem convert_to_dfa_output fuel automata dfa :
  convert_to_dfa fuel automata = Some dfa ->
  a_alphabet dfa = a_alphabet automata /\
  a_initial_state dfa
  = join (handle_closure (a_initial_state automata) (a_delta automata)) /\
  (forall e, In e (a_delta dfa) ->
     In (edge1 e) (a_alphabet automata) /\
     exists c, edge0 e = join c /\
               edge2 e = join (successor (a_delta automata) (edge1 e) c) /\
               successor (a_delta automata) (edge1 e) c <> []) /\
  (forall l, In l (a_final_states dfa) ->
     exists c q, l = join c /\ In q c /\ In q (a_final_states automata)) /\
  ((exists q, In q (handle_closure (a_initial_state automata) (a_delta automata)) /\
              In q (a_final_states automata)) ->
   In (a_initial_state dfa) (a_final_states dfa)).
Proof.
  intros H. destruct (convert_to_dfa_inv _ _ _ H) as (ns & nd & Hw & ->).
  cbn [a_alphabet a_initial_state a_delta a_final_states].
  set (c0 := handle_closure (a_initial_state automata) (a_delta automata)) in *.
  destruct (subset_while_inv _ _ _ _ _ _ _ _ _ _
              (subset_inv_init (a_alphabet automata) (a_delta automata) c0) Hw)
    as [w [Ir _ _ _ If]].
  assert (Hns : exists rest, ns = c0 :: rest).
  { destruct If as [[_ Hq] | Hrest]; [discriminate Hq | exact Hrest]. }
  destruct Hns as [rest ->].
  assert (Hc0 : set_in (a_initial_state automata) c0 = true).
  { apply set_in_In. unfold c0. apply handle_closure_reach. constructor. }
  assert (Hinit : select_initial_state (a_initial_state automata) (c0 :: rest) = join c0).
  { unfold select_initial_state. cbn [find]. now rewrite Hc0. }
  split; [reflexivity |]. split; [exact Hinit |]. split; [| split].
  - intros e He. unfold format_delta in He. apply in_map_iff in He.
    destruct He as [[[c s] n] [<- Hin]]. cbn [edge0 edge1 edge2 fst snd].
    apply Ir in Hin. destruct Hin as (_ & Hs & -> & Hne).
    split; [exact Hs |]. now exists c.
  - intros l Hl. unfold format_final_states in Hl. apply in_map_iff in Hl.
    destruct Hl as [c [<- Hc]]. unfold select_final_states in Hc.
    apply filter_In in Hc. destruct Hc as [_ Hex]. apply existsb_exists in Hex.
    destruct Hex as [q [Hq Hf]]. exists c, q. split; [reflexivity |].
    split; [exact Hq | now apply set_in_In].
  - intros [q [Hq Hf]]. rewrite Hinit. unfold format_final_states.
    apply in_map. unfold select_final_states. apply filter_In. split; [now left |].
    apply existsb_exists. exists q. split; [exact Hq | now apply set_in_In].
Qed.

Lemma convert_to_dfa_output_witness :
  a_initial_state Samples.names_dfa
  = join (handle_closure (a_initial_state Samples.names) (a_delta Samples.names)) /\
  a_alphabet Samples.names_dfa = a_alphabet Samples.names.
Proof.
  destruct (convert_to_dfa_output 4 Samples.names Samples.names_dfa eq_refl)
    as (Ha & Hi & _).
  split; [exact Hi | exact Ha].
Defined.

End DeterminizerOutput.

(** ** [convert_to_dfa]: successor sets and the runs of the automaton *)

Section SuccessorRuns.
Import Closure Determinizer Subsets.

Lemma eps_reach_first delta p r q :
  In (p, EPSILON, r) delta -> eps_reach delta r q -> eps_reach delta p q.
Proof.
  intros He Hr. apply eps_reach_trans with (q := r); [| exact Hr].
  apply eps_step with (q := p); [constructor | exact He].
Qed.

Lemma run_nil_reach delta p w q : NFA.run delta p w q -> w = [] -> eps_reach delta p q.
Proof.
  intros H. induction H as [q | p r w q He _ IH | p a r w q _ _ _ _]; intros Hw.
  - constructor.
  - apply eps_reach_first with (r := r); auto.
  - discriminate Hw.
Qed.

Lemma reach_run delta p p' w q :
  eps_reach delta p p' -> NFA.run delta p' w q -> NFA.run delta p w q.
Proof.
  intros H. revert q. induction H as [| p' r _ IH He]; intros q Hrun; [exact Hrun |].
  apply IH. now apply NFA.run_eps with (r := r).
Qed.

Lemma closure_eps_closed delta state : eps_closed delta (handle_closure state delta).
Proof.
  intros p q Hp Hq. apply handle_closure_reach. apply handle_closure_reach in Hp.
  now apply eps_reach_trans with (q := p).
Qed.

Lemma successor_in delta symbol current q :
  In q (successor delta symbol current)
  <-> exists p r, In p current /\ In (p, symbol, r) delta /\ eps_reach delta r q.
Proof.
  unfold successor. rewrite successor_part. split; [| auto].
  intros [[] | H]. exact H.
Qed.

Lemma successor_eps_closed delta symbol current :
  eps_closed delta (successor delta symbol current).
Proof.
  intros p q Hp Hq. apply successor_in. apply successor_in in Hp.
  destruct Hp as [p0 [r (H0 & Hr & Hp)]]. exists p0, r.
  repeat split; auto. now apply eps_reach_trans with (q := p).
Qed.

Lemma run_in_after delta p w q :
  NFA.run delta p w q ->
  forall c, eps_closed delta c -> In p c -> In q (after delta c w).
Proof.
  intros H. induction H as [q | p r w q He _ IH | p a r w q _ He _ IH]; intros c Hc Hp.
  - exact Hp.
  - apply IH; [exact Hc |]. apply (Hc p r Hp).
    apply eps_step with (q := p); [constructor | exact He].
  - unfold after. cbn [fold_left]. apply IH; [apply successor_eps_closed |].
    apply successor_in. exists p, r. repeat split; auto. constructor.
Qed.

Lemma after_has_run delta w :
  ~ In EPSILON w ->
  forall c q, In q (after delta c w) -> exists p, In p c /\ NFA.run delta p w q.
Proof.
  induction w as [| a w IH]; intros Hw c q Hq.
  - exists q. split; [exact Hq | constructor].
  - unfold after in Hq. cbn [fold_left] in Hq.
    destruct (IH (fun H => Hw (or_intror H)) _ _ Hq) as [p' [Hp' Hrun]].
    apply successor_in in Hp'. destruct Hp' as [p [r (Hp & Hr & Hreach)]].
    exists p. split; [exact Hp |].
    apply NFA.run_read with (r := r); [| exact Hr | now apply reach_run with (p' := p')].
    intros ->. apply Hw. now left.
Qed.

(** X15: starting from the closure of the initial state and computing the
    successor set for each symbol of a word in turn, as [convert_to_dfa]
    does for the sets it processes, gives exactly the states in which a run
    of the automaton over the word can end (for a word that does not use
    the marker [&] as a symbol). *)
Theorem after_runs delta initial_state w q :
  ~ In EPSILON w ->
  (In q (after delta (handle_closure initial_state delta) w)
   <-> NFA.run delta initial_state w q).
Proof.
  intros Hw. split.
  - intros Hq. destruct (after_has_run delta w Hw _ _ Hq) as [p [Hp Hrun]].
    apply handle_closure_reach in Hp. now apply reach_run with (p' := p).
  - intros Hrun. apply (run_in_after _ _ _ _ Hrun); [apply closure_eps_closed |].
    apply handle_closure_reach. constructor.
Qed.

Lemma after_runs_witness :
  In "q3" (after (a_delta Samples.sample)
                 (handle_closure "q0" (a_delta Samples.sample)) ["a"; "b"])
  <-> NFA.run (a_delta Samples.sample) "q0" ["a"; "b"] "q3".
Proof.
  apply (after_runs (a_delta Samples.sample) "q0" ["a"; "b"] "q3").
  intros [H | [H | []]]; discriminate H.
Defined.

Lemma successor_equal delta symbol c c' :
  set_eqb c c' = true ->
  set_eqb (successor delta symbol c) (successor delta symbol c') = true.
Proof.
  intros H. apply set_eqb_incl in H. destruct H as [H1 H2]. apply set_eqb_incl.
  split; intros q Hq; apply successor_in; apply successor_in in Hq;
    destruct Hq as [p [r (Hp & Hr & Hq)]]; exists p, r; auto.
Qed.

Lemma set_eqb_nonempty c c' : set_eqb c c' = true -> c <> [] -> c' <> [].
Proof.
  intros H Hne ->. apply set_eqb_incl in H. destruct H as [H _].
  destruct c as [| x c]; [now apply Hne | exact (H x (or_introl eq_refl))].
Qed.

Lemma set_eqb_trans a b c : set_eqb a b = true -> set_eqb b c = true -> set_eqb a c = true.
Proof.
  intros H1 H2. apply set_eqb_incl in H1, H2. apply set_eqb_incl.
  destruct H1, H2. split; eapply incl_tran; eassumption.
Qed.

Lemma set_eqb_sym a b : set_eqb a b = true -> set_eqb b a = true.
Proof. intros H. apply set_eqb_incl in H. apply set_eqb_incl. tauto. Qed.

Lemma successor_nil delta symbol : successor delta symbol [] = [].
Proof. reflexivity. Qed.

(** The sets reached by words over the alphabet are processed. *)
Lemma after_processed alphabet delta c0 watched new_states new_delta :
  subset_inv alphabet delta c0 [] watched new_states new_delta ->
  forall w, Forall (fun symbol => In symbol alphabet) w ->
    after delta c0 w <> [] ->
    exists c, In c new_states /\ set_eqb (after delta c0 w) c = true.
Proof.
  intros [Ir Iw Iq Io If] w. induction w as [| a w IH] using rev_ind; intros Hw Hne.
  - exists c0. split.
    + destruct If as [[_ Hq] | [rest ->]]; [discriminate Hq | now left].
    + apply set_eqb_incl. split; apply incl_refl.
  - apply Forall_app in Hw. destruct Hw as [Hw Ha]. inversion Ha as [| ? ? Hin _]; subst.
    unfold after in Hne |- *. rewrite fold_left_app in Hne |- *. cbn [fold_left] in Hne |- *.
    fold (after delta c0 w) in Hne |- *.
    assert (Hprev : after delta c0 w <> []).
    { intros Heq. rewrite Heq in Hne. now apply Hne. }
    destruct (IH Hw Hprev) as [c [Hc Heq]].
    pose proof (successor_equal delta a _ _ Heq) as Hsucc.
    pose proof (set_eqb_nonempty _ _ Hsucc Hne) as Hne'.
    assert (Hrule : In (c, a, successor delta a c) new_delta) by (apply Ir; auto).
    apply Iw, watched_in_spec in Hrule. destruct Hrule as [c' [Hc' Heq']].
    exists c'. split.
    + destruct (Iq c' Hc') as [[] | H]. exact H.
    + now apply set_eqb_trans with (b := successor delta a c).
Qed.

(** X16: when the loop of [convert_to_dfa] has ended, every non-empty set of
    states that a word over the alphabet leads to from the closure of the
    initial state is equal, as a set, to one of the processed sets; for a
    word that does not use the marker [&], the automaton has a run over the
    word into an original final state exactly when that processed set holds
    one. *)
Theorem subset_construction_complete fuel alphabet delta initial_state
        new_states new_delta w :
  subset_while fuel alphabet delta [handle_closure initial_state delta] [] [] []
  = Some (new_states, new_delta) ->
  Forall (fun symbol => In symbol alphabet) w ->
  after delta (handle_closure initial_state delta) w <> [] ->
  exists c,
    In c new_states /\
    set_eqb (after delta (handle_closure initial_state delta) w) c = true /\
    (~ In EPSILON w ->
     forall final_states,
       (exists q, NFA.run delta initial_state w q /\ In q final_states)
       <-> existsb (fun state => set_in state final_states) c = true).
Proof.
  intros H Hw Hne.
  destruct (subset_while_inv _ _ _ _ _ _ _ _ _ _
              (subset_inv_init alphabet delta (handle_closure initial_state delta)) H)
    as [watched Hinv].
  destruct (after_processed _ _ _ _ _ _ Hinv w Hw Hne) as [c [Hc Heq]].
  exists c. split; [exact Hc |]. split; [exact Heq |].
  intros Hmark final_states. apply set_eqb_incl in Heq. destruct Heq as [H1 H2].
  rewrite existsb_exists. split.
  - intros [q [Hrun Hq]]. exists q. split; [| now apply set_in_In].
    apply H1.
    apply (run_in_after _ _ _ _ Hrun); [apply closure_eps_closed |].
    apply handle_closure_reach. constructor.
  - intros [q [Hq Hf]]. exists q. split; [| now apply set_in_In].
    apply H2 in Hq. destruct (after_has_run delta w Hmark _ _ Hq) as [p [Hp Hrun]].
    apply handle_closure_reach in Hp. now apply reach_run with (p' := p).
Qed.

Lemma subset_construction_complete_witness :
  exists c,
    In c [["s"]; ["aaa"]; ["s"]; ["a"; "aa"]] /\
    set_eqb (after (a_delta Samples.names)
                   (handle_closure "s" (a_delta Samples.names)) ["x"; "y"]) c = true /\
    (~ In EPSILON ["x"; "y"] ->
     forall final_states,
       (exists q, NFA.run (a_delta Samples.names) "s" ["x"; "y"] q /\ In q final_states)
       <-> existsb (fun state => set_in state final_states) c = true).
Proof.
  refine (subset_construction_complete 4 ["x"; "y"] (a_delta Samples.names) "s"
            _ _ ["x"; "y"] eq_refl _ _).
  - constructor; [cbn; auto | constructor; [cbn; auto | constructor]].
  - vm_compute. discriminate.
Defined.

End SuccessorRuns.

(** ** [convert_to_dfa] followed by [process] *)

Section DeterminizedRun.
Import Closure Determinizer Subsets Labels Evaluator.

(** [convert_to_dfa] is [convert_labelled] for the labelling that joins the
    members in the order of the list. *)
Lemma convert_labelled_join fuel automata :
  convert_labelled join fuel automata = convert_to_dfa fuel automata.
Proof. reflexivity. Qed.

Lemma faithfulb_faithful label sets : faithfulb label sets = true -> faithful label sets.
Proof.
  unfold faithfulb, faithful. intros H c c' Hc Hc'.
  rewrite forallb_forall in H. specialize (H c Hc).
  rewrite forallb_forall in H. specialize (H c' Hc').
  apply Bool.eqb_prop in H. rewrite <- H. symmetry. apply String.eqb_eq.
Qed.

Lemma has_final_equal final_states c c' :
  set_eqb c c' = true ->
  existsb (fun state => set_in state final_states) c = true ->
  existsb (fun state => set_in state final_states) c' = true.
Proof.
  intros Heq H. apply set_eqb_incl in Heq. destruct Heq as [H1 _].
  apply existsb_exists in H. destruct H as [q [Hq Hf]].
  apply existsb_exists. exists q. split; [now apply H1 | exact Hf].
Qed.

Section WithConstruction.
Variable label : list string -> string.
Variables (alphabet : list string) (delta : list edge) (c0 : list string).
Variables (watched new_states : list (list string)) (new_delta : list set_edge).
Hypothesis Hinv : subset_inv alphabet delta c0 [] watched new_states new_delta.
Hypothesis Hfaithful : faithful label (labelled new_states new_delta).

Lemma labelled_state c : In c new_states -> In c (labelled new_states new_delta).
Proof. intros H. apply in_or_app. now left. Qed.

Lemma labelled_dest c s n :
  In (c, s, n) new_delta -> In n (labelled new_states new_delta).
Proof.
  intros H. apply in_or_app. right. apply in_map_iff. now exists (c, s, n).
Qed.

(** From the label of a processed set, [process] moves to the label of its
    successor set. *)
Lemma follow_label c a :
  In c new_states -> In a alphabet -> successor delta a c <> [] ->
  follow (format_delta_with label new_delta) (label c) a = label (successor delta a c).
Proof.
  intros Hc Ha Hne. destruct Hinv as [Ir Iw Iq Io If].
  assert (Hrule : In (c, a, successor delta a c) new_delta) by (apply Ir; auto).
  destruct (follow_found (format_delta_with label new_delta) (label c) a)
    as [e [He [H0 [H1 ->]]]].
  { exists (label (successor delta a c)). unfold format_delta_with. apply in_map_iff.
    now exists (c, a, successor delta a c). }
  unfold format_delta_with in He. apply in_map_iff in He.
  destruct He as [[[c1 s1] n1] [<- Hin]]. cbn [edge0 edge1 edge2 fst snd] in *. subst s1.
  pose proof (proj1 (Ir _ _ _) Hin) as (Hc1 & _ & Hn1 & _).
  assert (Heq : set_eqb c1 c = true).
  { apply (Hfaithful c1 c); [now apply labelled_state | now apply labelled_state | exact H0]. }
  apply (Hfaithful n1 (successor delta a c)).
  - now apply labelled_dest with (c := c1) (s := a).
  - now apply labelled_dest with (c := c) (s := a).
  - subst n1. now apply successor_equal.
Qed.

(** Over a word that leads to a non-empty set, [process] ends on the label
    of a processed set equal to that set. *)
Lemma run_label w :
  Forall (fun symbol => In symbol alphabet) w ->
  after delta c0 w <> [] ->
  exists c, In c new_states /\ set_eqb (after delta c0 w) c = true /\
            run_symbols alphabet (format_delta_with label new_delta) (label c0) w
            = Some (label c).
Proof.
  pose proof Hinv as [Ir Iw Iq Io If].
  induction w as [| a w IH] using rev_ind; intros Hw Hne.
  - exists c0. split; [| split; [| reflexivity]].
    + destruct If as [[_ Hq] | [rest ->]]; [discriminate Hq | now left].
    + apply set_eqb_incl. split; apply incl_refl.
  - apply Forall_app in Hw. destruct Hw as [Hw Ha]. inversion Ha as [| ? ? Hin _]; subst.
    unfold after in Hne |- *. rewrite fold_left_app in Hne |- *. cbn [fold_left] in Hne |- *.
    fold (after delta c0 w) in Hne |- *.
    assert (Hprev : after delta c0 w <> []).
    { intros Heq. rewrite Heq in Hne. now apply Hne. }
    destruct (IH Hw Hprev) as [c [Hc [Heq Hrun]]].
    pose proof (successor_equal delta a _ _ Heq) as Hsucc.
    pose proof (set_eqb_nonempty _ _ Hsucc Hne) as Hne'.
    assert (Hrule : In (c, a, successor delta a c) new_delta) by (apply Ir; auto).
    pose proof (Iw _ _ _ Hrule) as Hwatched. apply watched_in_spec in Hwatched.
    destruct Hwatched as [c' [Hc' Heq']].
    assert (Hns : In c' new_states) by (destruct (Iq c' Hc') as [[] | H]; exact H).
    exists c'. split; [exact Hns |]. split.
    + now apply set_eqb_trans with (b := successor delta a c).
    + rewrite (run_symbols_app _ _ _ _ _ _ Hrun). cbn [run_symbols].
      apply set_in_In in Hin. rewrite Hin. cbn [negb].
      rewrite (follow_label c a Hc (proj1 (set_in_In _ _) Hin) Hne'). f_equal.
      apply (Hfaithful (successor delta a c) c').
      * now apply labelled_dest with (c := c) (s := a).
      * now apply labelled_state.
      * exact Heq'.
Qed.

(** The label of a processed set is final exactly when the set holds an
    original final state. *)
Lemma final_label final_states c :
  In c new_states ->
  set_in (label c)
         (format_final_states_with label (select_final_states final_states new_states))
  = existsb (fun state => set_in state final_states) c.
Proof.
  intros Hc. destruct (existsb _ c) eqn:E.
  - apply set_in_In. unfold format_final_states_with, select_final_states.
    apply in_map, filter_In. auto.
  - apply set_in_false. intros Hin.
    unfold format_final_states_with, select_final_states in Hin. apply in_map_iff in Hin.
    destruct Hin as [c' [Hjoin Hc']]. apply filter_In in Hc'. destruct Hc' as [Hc' Hf].
    assert (Heq : set_eqb c' c = true).
    { apply (Hfaithful c' c); [now apply labelled_state | now apply labelled_state | exact Hjoin]. }
    rewrite (has_final_equal _ _ _ Heq Hf) in E. discriminate.
Qed.

End WithConstruction.

Lemma forallb_Forall_in alphabet (w : list string) :
  forallb (fun symbol => set_in symbol alphabet) w = true ->
  Forall (fun symbol => In symbol alphabet) w.
Proof.
  intros H. rewrite forallb_forall in H. apply Forall_forall.
  intros x Hx. apply set_in_In. now apply H.
Qed.

Lemma convert_labelled_inv label fuel automata dfa :
  convert_labelled label fuel automata = Some dfa ->
  exists new_states new_delta,
    subset_while fuel (a_alphabet automata) (a_delta automata)
                 [handle_closure (a_initial_state automata) (a_delta automata)] [] [] []
    = Some (new_states, new_delta) /\
    dfa = mk_automata (format_states_with label new_states) (a_alphabet automata)
            (format_delta_with label new_delta)
            (select_initial_label label (a_initial_state automata) new_states)
            (format_final_states_with label
               (select_final_states (a_final_states automata) new_states)).
Proof.
  unfold convert_labelled. intros H.
  destruct (subset_while fuel _ _ _ _ _ _) as [[ns nd] |]; [| discriminate].
  inversion H. now exists ns, nd.
Qed.

(** X17: [convert_to_dfa] followed by [process] classifies a word as the
    language of the original automaton does, under three conditions,
    whatever the order in which Python iterates the sets when it joins
    them.  The labels given to the sets built (each the concatenation of the
    members of the set in some order) are faithful: two of the sets have the
    same label exactly when they are equal as sets.  The word is over the
    alphabet and does not use the marker [&].  The automaton has some run
    over the whole word, so that no rule is missing on the way.  The word is
    then ACEITA when a run of the original automaton over it ends in a final
    state and REJEITA otherwise. *)
Theorem determinized_language label fuel automata new_states new_delta dfa word :
  subset_while fuel (a_alphabet automata) (a_delta automata)
               [handle_closure (a_initial_state automata) (a_delta automata)] [] [] []
  = Some (new_states, new_delta) ->
  convert_labelled label fuel automata = Some dfa ->
  joins label (labelled new_states new_delta) ->
  faithful label (labelled new_states new_delta) ->
  forallb (fun symbol => set_in symbol (a_alphabet automata)) (symbols_of word) = true ->
  ~ In EPSILON (symbols_of word) ->
  (exists q, NFA.run (a_delta automata) (a_initial_state automata) (symbols_of word) q) ->
  NFA.classifies automata word
    (classify (a_alphabet dfa) (a_delta dfa) (a_initial_state dfa) (a_final_states dfa) word)
  /\
  process dfa [word] =
  [(word, if existsb (fun q => set_in q (a_final_states automata))
                     (after (a_delta automata)
                            (handle_closure (a_initial_state automata) (a_delta automata))
                            (symbols_of word))
          then "ACEITA" else "REJEITA")].
Proof.
  intros Hw Hdfa _ Hfaithful Hword Hmark [q0 Hrun0].
  set (c0 := handle_closure (a_initial_state automata) (a_delta automata)) in *.
  destruct (subset_while_inv _ _ _ _ _ _ _ _ _ _
              (subset_inv_init (a_alphabet automata) (a_delta automata) c0) Hw)
    as [watched Hinv].
  assert (Hdfa' : dfa = mk_automata (format_states_with label new_states)
            (a_alphabet automata) (format_delta_with label new_delta) (label c0)
            (format_final_states_with label
               (select_final_states (a_final_states automata) new_states))).
  { destruct (convert_labelled_inv _ _ _ _ Hdfa) as (ns & nd & Hw' & ->).
    fold c0 in Hw'. rewrite Hw in Hw'. inversion Hw'; subst ns nd. f_equal.
    destruct Hinv as [_ _ _ _ [[_ Hq] | [rest ->]]]; [discriminate Hq |].
    unfold select_initial_label. cbn [find].
    assert (Hin : set_in (a_initial_state automata) c0 = true).
    { apply set_in_In. unfold c0. apply handle_closure_reach. constructor. }
    now rewrite Hin. }
  assert (Hne : after (a_delta automata) c0 (symbols_of word) <> []).
  { intros Heq.
    assert (Hq0 : In q0 (after (a_delta automata) c0 (symbols_of word))).
    { apply (run_in_after _ _ _ _ Hrun0); [apply closure_eps_closed |].
      unfold c0. apply handle_closure_reach. constructor. }
    rewrite Heq in Hq0. destruct Hq0. }
  destruct (run_label label _ _ _ _ _ _ Hinv Hfaithful (symbols_of word)
              (forallb_Forall_in _ _ Hword) Hne) as [c [Hc [Heq Hrun]]].
  assert (Hclass :
    classify (a_alphabet dfa) (a_delta dfa) (a_initial_state dfa) (a_final_states dfa) word
    = if existsb (fun q => set_in q (a_final_states automata))
                 (after (a_delta automata) c0 (symbols_of word))
      then "ACEITA" else "REJEITA").
  { subst dfa. cbn [a_alphabet a_delta a_initial_state a_final_states].
    unfold classify. rewrite Hrun.
    rewrite (final_label label _ _ Hfaithful (a_final_states automata) c Hc).
    destruct (existsb _ c) eqn:E.
    - now rewrite (has_final_equal _ _ _ (set_eqb_sym _ _ Heq) E).
    - destruct (existsb _ (after _ c0 _)) eqn:E'; [| reflexivity].
      rewrite (has_final_equal _ _ _ Heq E') in E. discriminate. }
  split; [| rewrite process_one; now rewrite Hclass].
  rewrite Hclass. unfold NFA.classifies. rewrite Hword.
  destruct (existsb _ (after _ c0 _)) eqn:E.
  - left. split; [| reflexivity]. apply existsb_exists in E. destruct E as [q [Hq Hf]].
    exists q. split; [| now apply set_in_In].
    destruct (after_has_run _ _ Hmark _ _ Hq) as [p [Hp Hrun']].
    unfold c0 in Hp. apply handle_closure_reach in Hp. now apply reach_run with (p' := p).
  - right. split; [| reflexivity]. intros [q [Hrun' Hf]].
    assert (Hq : In q (after (a_delta automata) c0 (symbols_of word))).
    { apply (run_in_after _ _ _ _ Hrun'); [apply closure_eps_closed |].
      unfold c0. apply handle_closure_reach. constructor. }
    assert (Hyes : existsb (fun q => set_in q (a_final_states automata))
                           (after (a_delta automata) c0 (symbols_of word)) = true).
    { apply existsb_exists. exists q. split; [exact Hq | now apply set_in_In]. }
    congruence.
Qed.

(** On the automaton [guess], with every set joined in the order
    [q0 q1 q2] of its members, the words [ab] and [abb] have a run that ends
    in [q2] and are accepted after determinisation. *)
Lemma determinized_language_witness :
  convert_labelled (in_order_of ["q0"; "q1"; "q2"]) 4 MoreSamples.guess
  = Some (mk_automata (PyStr "q0q2") ["a"; "b"]
            [("q0", "a", "q0q1q2"); ("q0", "b", "q0"); ("q0", "a", "q0q1q2");
             ("q0", "b", "q0"); ("q0q1q2", "a", "q0q1q2"); ("q0q1q2", "b", "q0q2");
             ("q0q2", "a", "q0q1q2"); ("q0q2", "b", "q0q2")]
            "q0" ["q0q1q2"; "q0q2"]) /\
  NFA.classifies MoreSamples.guess "abb" "ACEITA" /\
  process
    (mk_automata (PyStr "q0q2") ["a"; "b"]
       [("q0", "a", "q0q1q2"); ("q0", "b", "q0"); ("q0", "a", "q0q1q2"); ("q0", "b", "q0");
        ("q0q1q2", "a", "q0q1q2"); ("q0q1q2", "b", "q0q2");
        ("q0q2", "a", "q0q1q2"); ("q0q2", "b", "q0q2")]
       "q0" ["q0q1q2"; "q0q2"])
    ["abb"] = [("abb", "ACEITA")].
Proof.
  split; [reflexivity |].
  refine (determinized_language (in_order_of ["q0"; "q1"; "q2"]) 4 MoreSamples.guess
            [["q0"]; ["q0"]; ["q0"; "q1"; "q2"]; ["q0"; "q2"]]
            [(["q0"], "a", ["q0"; "q1"; "q2"]); (["q0"], "b", ["q0"]);
             (["q0"], "a", ["q0"; "q1"; "q2"]); (["q0"], "b", ["q0"]);
             (["q0"; "q1"; "q2"], "a", ["q0"; "q1"; "q2"]);
             (["q0"; "q1"; "q2"], "b", ["q0"; "q2"]);
             (["q0"; "q2"], "a", ["q0"; "q1"; "q2"]);
             (["q0"; "q2"], "b", ["q0"; "q2"])]
            _ "abb" eq_refl eq_refl _ _ eq_refl _ _).
  - intros c Hc. exists c. split; [apply Permutation_refl |].
    cbn in Hc. repeat (destruct Hc as [<- | Hc]; [reflexivity |]). destruct Hc.
  - apply faithfulb_faithful. reflexivity.
  - intros [H | [H | [H | []]]]; discriminate H.
  - exists "q2". cbn [symbols_of].
    apply NFA.run_read with (r := "q1"); [discriminate | cbn; auto |].
    apply NFA.run_eps with (r := "q2"); [cbn; auto 10 |].
    apply NFA.run_read with (r := "q2"); [discriminate | cbn; auto 10 |].
    apply NFA.run_read with (r := "q2"); [discriminate | cbn; auto 10 | constructor].
Defined.

End DeterminizedRun.
